(** * S3Download task: listing, glob matching, path resolution, queueing

    A shallow embedding of [Tasks/S3Download/helpers/DownloadTaskOperations.ts]
    (class [TaskOperations]) and of [SdkUtils.roleArnFromName] from
    [Tasks/Common/sdkutils/sdkutils.ts].

    JavaScript strings are sequences of UTF-16 code units, modelled as
    [list N].  The libraries the task calls (node's [path] and [fs],
    [minimatch], [vsts-task-lib], the AWS SDK clients) are interfaces here,
    one type class each; the task code is written once over them.  Calls on
    the outside world are recorded, in order, in an event log carried by the
    state of a small state-and-exception monad. *)

From Stdlib Require Import List NArith Ascii String Bool Arith Lia.
Import ListNotations.

Set Implicit Arguments.

(** ** JavaScript strings *)

Definition jsstring := list N.

(** A string literal of the source. *)
Definition lit (s : string) : jsstring :=
  map N_of_ascii (list_ascii_of_string s).

Fixpoint isPrefixOf (p s : jsstring) : bool :=
  match p, s with
  | [], _ => true
  | _ :: _, [] => false
  | a :: p', b :: s' => N.eqb a b && isPrefixOf p' s'
  end.

(** [String.prototype.startsWith], [endsWith], [substring(n)] and [length]. *)
Definition startsWith (s p : jsstring) : bool := isPrefixOf p s.
Definition endsWith (s suffix : jsstring) : bool := isPrefixOf (rev suffix) (rev s).
Definition substring (s : jsstring) (n : nat) : jsstring := skipn n s.

(** Truthiness of a value that is a string, [null] or [undefined]. *)
Definition truthy (v : option jsstring) : bool :=
  match v with
  | Some (_ :: _) => true
  | _ => false
  end.

(** The string held by a value known to be truthy. *)
Definition str (v : option jsstring) : jsstring :=
  match v with
  | Some s => s
  | None => []
  end.

(** [a === b] on strings. *)
Fixpoint strictEq (a b : jsstring) : bool :=
  match a, b with
  | [], [] => true
  | x :: a', y :: b' => N.eqb x y && strictEq a' b'
  | _, _ => false
  end.

(** ** Errors and settled promises *)

Record JsError := mkJsError { err_name : jsstring; err_message : jsstring }.

(** [new Error(msg)] *)
Definition Error (msg : jsstring) : JsError := mkJsError (lit "Error") msg.

(** [Error.prototype.toString], which a template literal applies to [err]. *)
Definition errToString (e : JsError) : jsstring :=
  match err_name e, err_message e with
  | [], m => m
  | n, [] => n
  | n, m => n ++ lit ": " ++ m
  end.

(** What a collaborator's promise settles to. *)
Inductive Settled (A : Type) :=
| Fulfilled (a : A)
| Rejected (e : JsError).
Arguments Fulfilled {A} a.
Arguments Rejected {A} e.

(** ** S3 and IAM request and response shapes *)

Record S3Object := mkS3Object { Key : jsstring; Size : N }.

Record ListObjectsRequest := mkListObjectsRequest {
  lo_Bucket : jsstring;
  lo_Prefix : option jsstring;
  lo_Marker : option jsstring
}.

Record ListObjectsOutput := mkListObjectsOutput {
  Contents : list S3Object;
  NextMarker : option jsstring
}.

Record GetObjectRequest := mkGetObjectRequest {
  go_Bucket : jsstring;
  go_Key : jsstring;
  go_SSECustomerAlgorithm : option jsstring;
  go_SSECustomerKey : option jsstring
}.

(** ** Task parameters ([DownloadTaskParameters], fields the operations read) *)

Record TaskParameters := mkTaskParameters {
  bucketName : jsstring;
  sourceFolder : option jsstring;
  targetFolder : jsstring;
  globExpressions : list jsstring;
  flattenFolders : bool;
  overwrite : bool;
  keyManagement : jsstring;
  customerKey : jsstring
}.

(** Message keys of the task's resource file, as passed to [tl.loc]. *)
Inductive LocKey :=
| BucketNotExist | TaskCompleted | DownloadingFiles | FileOverwriteWarning
| FileExistsError | QueueingDownload | ListingKeysFromPrefix
| ListingKeysFromRoot | GlobbingFromPrefix | GlobbingFromRoot | MatchedKey.

(** ** Collaborator interfaces *)

(** node's [path] module. *)
Class PathLib := {
  basename : jsstring -> jsstring;
  dirname : jsstring -> jsstring;
  join : jsstring -> jsstring -> jsstring
}.

(** The local file system: [fs.existsSync], [tl.mkdirP] (which may throw
    after changing the disk) and [fs.createWriteStream].  The disk changes
    at these calls only; what a call changes is left open, so opening a
    write stream may or may not make its file visible at once. *)
Class FileSys := {
  FS : Type;
  existsSync : FS -> jsstring -> bool;
  mkdirP : FS -> jsstring -> FS * option JsError;
  createWriteStream : FS -> jsstring -> FS
}.

(** [vsts-task-lib]: message formatting, and the two static constants of
    [DownloadTaskParameters]. *)
Class TaskLib := {
  loc : LocKey -> list jsstring -> jsstring;
  customerManagedKeyValue : jsstring;
  aes256AlgorithmValue : jsstring
}.

(** [new mm.Minimatch(glob).match(name)] *)
Class GlobLib := {
  minimatch : jsstring -> jsstring -> bool
}.

(** The S3 client: [headBucket] and [listObjects]. *)
Class S3Client := {
  headBucket : jsstring -> Settled unit;
  listObjects : ListObjectsRequest -> Settled ListObjectsOutput
}.

(** The IAM client: [getRole(...).promise()], projected on [Role.Arn]. *)
Class IamClient := {
  getRole : jsstring -> Settled jsstring
}.

(** ** Events, world state and the monad *)

Inductive Event :=
| ConsoleLog (msg : jsstring)
| ConsoleError (e : JsError)
| Debug (msg : jsstring)
| CallHeadBucket (bucket : jsstring)
| CallListObjects (req : ListObjectsRequest)
| CallGetObject (req : GetObjectRequest)
| CallGetRole (roleName : jsstring)
| CallMkdirP (dir : jsstring)
| CallCreateWriteStream (dest : jsstring).

(** How a computation ends: it returns, it throws, or it never settles
    (the pagination budget or the stream schedule ran out first). *)
Inductive Outcome (A : Type) :=
| Ret (a : A)
| Throw (e : JsError)
| Hang.
Arguments Ret {A} a.
Arguments Throw {A} e.
Arguments Hang {A}.

(** State of a promise returned by [downloadFile]. *)
Inductive PromiseState :=
| Pending
| Resolved
| Failed (e : JsError).

(** What the two streams of one transfer can report. *)
Inductive StreamEvent :=
| Chunk
| SourceError (e : JsError)
| SinkError (e : JsError)
| SinkClose.

Record Download := mkDownload {
  dl_params : GetObjectRequest;
  dl_dest : jsstring;
  dl_state : PromiseState
}.

(** How a pagination ends: the service returned no further marker, or a
    page request failed. *)
Inductive PageStop :=
| LastPage
| PageFailed (e : JsError).

(** Keys of a page, and the keys the lister keeps. *)
Definition pageKeys (pg : ListObjectsOutput) : list jsstring :=
  map Key (Contents pg).

Definition folderMarker : jsstring := lit "_$folder$".

Definition isFolderMarker (key : jsstring) : bool := endsWith key folderMarker.

Definition keptKey (key : jsstring) : bool := negb (isFolderMarker key).

(** [l1] is [l2] with some elements left out, order kept. *)
Inductive Subseq {A : Type} : list A -> list A -> Prop :=
| Subseq_nil : Subseq [] []
| Subseq_skip x l1 l2 : Subseq l1 l2 -> Subseq l1 (x :: l2)
| Subseq_keep x l1 l2 : Subseq l1 l2 -> Subseq (x :: l1) (x :: l2).

(** The key a queued download asks for. *)
Definition keyOf (d : Download) : jsstring := go_Key (dl_params d).

(** How often [key] occurs in [l]. *)
Definition occurrences (key : jsstring) (l : list jsstring) : nat :=
  List.length (filter (strictEq key) l).

(** A stream event that reports an error. *)
Definition reportsError (ev : StreamEvent) : option JsError :=
  match ev with
  | SourceError e => Some e
  | SinkError e => Some e
  | _ => None
  end.

Section Operations.

Context {PL : PathLib} {FSys : FileSys} {TL : TaskLib} {GL : GlobLib}
        {S3 : S3Client} {IAM : IamClient}.

Record World := mkWorld { disk : FS; out : list Event }.

Definition M (A : Type) : Type := World -> World * Outcome A.

Definition ret {A} (a : A) : M A := fun w => (w, Ret a).
Definition throw {A} (e : JsError) : M A := fun w => (w, Throw e).
Definition hang {A} : M A := fun w => (w, Hang).

Definition bind {A B} (m : M A) (k : A -> M B) : M B :=
  fun w =>
    match m w with
    | (w', Ret a) => k a w'
    | (w', Throw e) => (w', Throw e)
    | (w', Hang) => (w', Hang)
    end.

Notation "x <- m ;; k" := (bind m (fun x => k))
  (at level 61, m at next level, right associativity).
Notation "m ;; k" := (bind m (fun _ => k))
  (at level 61, right associativity).

Definition emit (ev : Event) : M unit :=
  fun w => (mkWorld (disk w) (out w ++ [ev]), Ret tt).

Definition consoleLog (msg : jsstring) : M unit := emit (ConsoleLog msg).
Definition consoleError (e : JsError) : M unit := emit (ConsoleError e).
Definition debug (msg : jsstring) : M unit := emit (Debug msg).

Definition fsExistsSync (p : jsstring) : M bool :=
  fun w => (w, Ret (existsSync (disk w) p)).

Definition tlMkdirP (p : jsstring) : M unit :=
  fun w =>
    let w1 := mkWorld (disk w) (out w ++ [CallMkdirP p]) in
    match mkdirP (disk w1) p with
    | (d, None) => (mkWorld d (out w1), Ret tt)
    | (d, Some e) => (mkWorld d (out w1), Throw e)
    end.

Definition fsCreateWriteStream (p : jsstring) : M unit :=
  fun w => (mkWorld (createWriteStream (disk w) p)
                    (out w ++ [CallCreateWriteStream p]), Ret tt).

(** [await client.op(...).promise()] inside [try]: the settled value is
    handed to the caller, which branches where the source has [catch]. *)
Definition await {A} (ev : Event) (r : Settled A) : M (Settled A) :=
  emit ev ;; ret r.

(** A [for ... of] loop (or [forEach]) that updates an accumulator. *)
Fixpoint forEachM {A B} (f : B -> A -> M B) (l : list A) (acc : B) : M B :=
  match l with
  | [] => ret acc
  | x :: l' => acc' <- f acc x ;; forEachM f l' acc'
  end.

(** ** [fetchAllObjectKeys] *)

(** The [forEach] over [s3Data.Contents]. *)
Definition pushKeys (allKeys : list jsstring) (contents : list S3Object)
  : list jsstring :=
  fold_left
    (fun keys s3object =>
       if negb (endsWith (Key s3object) folderMarker)
       then keys ++ [Key s3object]
       else keys)
    contents allKeys.

(** The [do ... while (nextToken)] loop; [fuel] bounds the number of page
    requests. *)
Fixpoint fetchPages (p : TaskParameters) (fuel : nat)
    (nextToken : option jsstring) (allKeys : list jsstring)
  : M (list jsstring) :=
  match fuel with
  | O => hang
  | S fuel' =>
      let params := mkListObjectsRequest (bucketName p) (sourceFolder p) nextToken in
      r <- await (CallListObjects params) (listObjects params) ;;
      match r with
      | Fulfilled s3Data =>
          let nextToken := NextMarker s3Data in
          let allKeys := pushKeys allKeys (Contents s3Data) in
          if truthy nextToken
          then fetchPages p fuel' nextToken allKeys
          else ret allKeys
      | Rejected err =>
          consoleError err ;;
          ret allKeys
      end
  end.

Definition fetchAllObjectKeys (p : TaskParameters) (fuel : nat)
  : M (list jsstring) :=
  (if truthy (sourceFolder p)
   then consoleLog (loc ListingKeysFromPrefix [str (sourceFolder p); bucketName p])
   else consoleLog (loc ListingKeysFromRoot [bucketName p])) ;;
  fetchPages p fuel None [].

(** ** [matchObjectKeys] *)

Definition matchObjectKeys (allKeys : list jsstring)
    (sourcePrefix : option jsstring) (glob : jsstring) : M (list jsstring) :=
  sourcePrefixLen <-
    (if truthy sourcePrefix
     then consoleLog (loc GlobbingFromPrefix [str sourcePrefix; glob]) ;;
          ret (List.length (str sourcePrefix) + 1)
     else consoleLog (loc GlobbingFromRoot [glob]) ;;
          ret 0) ;;
  forEachM
    (fun matchedKeys key =>
       let keyToTest := substring key sourcePrefixLen in
       if minimatch glob keyToTest
       then debug (loc MatchedKey [key]) ;;
            ret (matchedKeys ++ [key])
       else ret matchedKeys)
    allKeys [].

(** ** [downloadFile] *)

(** [new Promise(executor)]: the executor runs at once; if it throws, the
    promise is born rejected and the caller goes on. *)
Definition newPromise (executor : M unit) : M PromiseState :=
  fun w =>
    match executor w with
    | (w', Ret _) => (w', Ret Pending)
    | (w', Throw e) => (w', Ret (Failed e))
    | (w', Hang) => (w', Hang)
    end.

Definition downloadFile (s3Params : GetObjectRequest) (dest : jsstring)
  : M Download :=
  st <- newPromise
          (let dir := dirname dest in
           ex <- fsExistsSync dir ;;
           (if negb ex then tlMkdirP dir else ret tt) ;;
           fsCreateWriteStream dest ;;
           emit (CallGetObject s3Params)) ;;
  ret (mkDownload s3Params dest st).

(** The three listeners of [downloadFile]: [s3Stream.on('error', reject)],
    [file.on('error', reject)], [file.on('close', resolve)].  A settled
    promise ignores later calls of [resolve] and [reject]. *)
Definition settle (st : PromiseState) (ev : StreamEvent) : PromiseState :=
  match st with
  | Pending =>
      match ev with
      | Chunk => Pending
      | SourceError e => Failed e
      | SinkError e => Failed e
      | SinkClose => Resolved
      end
  | _ => st
  end.

(** The promise of one transfer after its streams reported [evs], in order. *)
Definition transfer (st : PromiseState) (evs : list StreamEvent) : PromiseState :=
  fold_left settle evs st.

(** ** [downloadFiles] *)

Definition resolveDest (p : TaskParameters) (matchedKey : jsstring) : jsstring :=
  if flattenFolders p
  then let fname := basename matchedKey in join (targetFolder p) fname
  else join (targetFolder p) matchedKey.

Definition getObjectParams (p : TaskParameters) (matchedKey : jsstring)
  : GetObjectRequest :=
  if strictEq (keyManagement p) customerManagedKeyValue
  then mkGetObjectRequest (bucketName p) matchedKey
         (Some aes256AlgorithmValue) (Some (customerKey p))
  else mkGetObjectRequest (bucketName p) matchedKey None None.

(** Body of the inner loop, one matched key. *)
Definition queueMatch (p : TaskParameters) (allDownloads : list Download)
    (matchedKey : jsstring) : M (list Download) :=
  let dest := resolveDest p matchedKey in
  ex <- fsExistsSync dest ;;
  (if ex
   then if overwrite p
        then consoleLog (loc FileOverwriteWarning [dest; matchedKey])
        else throw (Error (loc FileExistsError [dest; matchedKey]))
   else ret tt) ;;
  consoleLog (loc QueueingDownload [matchedKey]) ;;
  d <- downloadFile (getObjectParams p matchedKey) dest ;;
  ret (allDownloads ++ [d]).

(** Body of the outer loop, one glob expression. *)
Definition queueGlob (p : TaskParameters) (allKeys : list jsstring)
    (allDownloads : list Download) (glob : jsstring) : M (list Download) :=
  matchedKeys <- matchObjectKeys allKeys (sourceFolder p) glob ;;
  forEachM (queueMatch p) matchedKeys allDownloads.

(** [downloadFiles], first part: the announcement, the target folder and
    the listing (up to [const allKeys = await this.fetchAllObjectKeys()]). *)
Definition listStage (p : TaskParameters) (fuel : nat) : M (list jsstring) :=
  let msgSource :=
    if truthy (sourceFolder p) then str (sourceFolder p) else lit "/" in
  consoleLog (loc DownloadingFiles [msgSource; bucketName p; targetFolder p]) ;;
  ex <- fsExistsSync (targetFolder p) ;;
  (if negb ex then tlMkdirP (targetFolder p) else ret tt) ;;
  fetchAllObjectKeys p fuel.

(** [downloadFiles], second part: the two nested [for ... of] loops. *)
Definition queueStage (p : TaskParameters) (allKeys : list jsstring)
  : M (list Download) :=
  forEachM (queueGlob p allKeys) (globExpressions p) [].

(** [downloadFiles] up to its [return]: the value is the array handed to
    [Promise.all]. *)
Definition downloadFiles (p : TaskParameters) (fuel : nat) : M (list Download) :=
  allKeys <- listStage p fuel ;;
  queueStage p allKeys.

(** ** [Promise.all] over the queued downloads *)

Fixpoint firstFailed (ps : list PromiseState) : option JsError :=
  match ps with
  | [] => None
  | Failed e :: _ => Some e
  | _ :: ps' => firstFailed ps'
  end.

Definition isResolved (st : PromiseState) : bool :=
  match st with
  | Resolved => true
  | _ => false
  end.

(** Stream event [ev] reaches the promise of download number [i]. *)
Fixpoint deliver (i : nat) (ev : StreamEvent) (ps : list PromiseState)
  : list PromiseState :=
  match ps, i with
  | [], _ => []
  | st :: ps', O => settle st ev :: ps'
  | st :: ps', S i' => st :: deliver i' ev ps'
  end.

(** [sched] is the order in which the stream events of all transfers
    arrive.  The combined promise rejects with the first rejection,
    resolves once every member has resolved, and stays pending otherwise. *)
Fixpoint promiseAll (ps : list PromiseState) (sched : list (nat * StreamEvent))
  : PromiseState :=
  match firstFailed ps with
  | Some e => Failed e
  | None =>
      if forallb isResolved ps then Resolved
      else match sched with
           | [] => Pending
           | (i, ev) :: sched' => promiseAll (deliver i ev ps) sched'
           end
  end.

(** ** [testBucketExists] and [execute] *)

Definition testBucketExists (bucket : jsstring) : M bool :=
  r <- await (CallHeadBucket bucket) (headBucket bucket) ;;
  match r with
  | Fulfilled _ => ret true
  | Rejected _ => ret false
  end.

Definition execute (p : TaskParameters) (fuel : nat)
    (sched : list (nat * StreamEvent)) : M unit :=
  exists_ <- testBucketExists (bucketName p) ;;
  if negb exists_
  then throw (Error (loc BucketNotExist [bucketName p]))
  else
    allDownloads <- downloadFiles p fuel ;;
    match promiseAll (map dl_state allDownloads) sched with
    | Resolved => consoleLog (loc TaskCompleted [])
    | Failed e => throw e
    | Pending => hang
    end.

(** ** [SdkUtils.roleArnFromName] *)

Definition roleArnFromName (roleName : jsstring) : M jsstring :=
  if startsWith roleName (lit "arn:")
  then ret roleName
  else
    consoleLog
      (lit "Attempting to retrieve Amazon Resource Name (ARN) for role "
           ++ roleName) ;;
    r <- await (CallGetRole roleName) (getRole roleName) ;;
    match r with
    | Fulfilled arn => ret arn
    | Rejected err =>
        throw (Error (lit "Error while obtaining ARN: " ++ errToString err))
    end.

(** ** Vocabulary of the statements *)

(** The pages a listing of [p]'s bucket goes through from [marker] on:
    the pages received, and how the pagination ends. *)
Inductive Paged (p : TaskParameters) : option jsstring ->
    list ListObjectsOutput -> PageStop -> Prop :=
| Paged_failed marker e :
    listObjects (mkListObjectsRequest (bucketName p) (sourceFolder p) marker)
      = Rejected e ->
    Paged p marker [] (PageFailed e)
| Paged_last marker pg :
    listObjects (mkListObjectsRequest (bucketName p) (sourceFolder p) marker)
      = Fulfilled pg ->
    truthy (NextMarker pg) = false ->
    Paged p marker [pg] LastPage
| Paged_next marker pg pgs stop :
    listObjects (mkListObjectsRequest (bucketName p) (sourceFolder p) marker)
      = Fulfilled pg ->
    truthy (NextMarker pg) = true ->
    Paged p (NextMarker pg) pgs stop ->
    Paged p marker (pg :: pgs) stop.

(** The name the matcher tests for [key]. *)
Definition keyToTest (sourcePrefix : option jsstring) (key : jsstring) : jsstring :=
  if truthy sourcePrefix
  then substring key (List.length (str sourcePrefix) + 1)
  else key.

(** A download queued for [key]. *)
Definition queuedFor (p : TaskParameters) (key : jsstring) (d : Download) : Prop :=
  dl_params d = getObjectParams p key /\ dl_dest d = resolveDest p key.

(** Started in world [w], [downloadFiles] gets to the existence check of
    [matchedKey] in world [w3], with [allDownloads] queued so far. *)
Definition reachesMatch (p : TaskParameters) (fuel : nat) (w : World)
    (matchedKey : jsstring) (allDownloads : list Download) (w3 : World) : Prop :=
  exists allKeys w0 gs1 g gs2 acc1 w1 w2 ks1 ks2,
    listStage p fuel w = (w0, Ret allKeys) /\
    globExpressions p = gs1 ++ g :: gs2 /\
    forEachM (queueGlob p allKeys) gs1 [] w0 = (w1, Ret acc1) /\
    matchObjectKeys allKeys (sourceFolder p) g w1
      = (w2, Ret (ks1 ++ matchedKey :: ks2)) /\
    forEachM (queueMatch p) ks1 acc1 w2 = (w3, Ret allDownloads).

End Operations.

(** * Sample collaborators

    Small executable stand-ins for the libraries, used to run the task on
    concrete inputs. *)

Module Sample.

Definition slash : N := 47.
Definition star : N := 42.

(** A POSIX-style [path]: segments are separated by [/]. *)
Fixpoint lastSegment (s acc : jsstring) : jsstring :=
  match s with
  | [] => acc
  | c :: s' => if N.eqb c slash then lastSegment s' [] else lastSegment s' (acc ++ [c])
  end.

Fixpoint parentOf (s : jsstring) : jsstring :=
  match s with
  | [] => []
  | c :: s' =>
      if existsb (N.eqb slash) s' then c :: parentOf s' else []
  end.

#[export] Instance posixPath : PathLib := {|
  basename := fun s => lastSegment s [];
  dirname := fun s => match parentOf s with [] => lit "." | d => d end;
  join := fun a b => a ++ slash :: b
|}.

(** A disk that is the list of the paths that exist; nothing ever fails. *)
#[export] Instance listDisk : FileSys := {|
  FS := list jsstring;
  existsSync := fun d p => existsb (strictEq p) d;
  mkdirP := fun d p => (p :: d, None);
  createWriteStream := fun d p => p :: d
|}.

Definition keyName (k : LocKey) : string :=
  match k with
  | BucketNotExist => "BucketNotExist"
  | TaskCompleted => "TaskCompleted"
  | DownloadingFiles => "DownloadingFiles"
  | FileOverwriteWarning => "FileOverwriteWarning"
  | FileExistsError => "FileExistsError"
  | QueueingDownload => "QueueingDownload"
  | ListingKeysFromPrefix => "ListingKeysFromPrefix"
  | ListingKeysFromRoot => "ListingKeysFromRoot"
  | GlobbingFromPrefix => "GlobbingFromPrefix"
  | GlobbingFromRoot => "GlobbingFromRoot"
  | MatchedKey => "MatchedKey"
  end.

(** Messages are the key followed by the arguments. *)
#[export] Instance plainMessages : TaskLib := {|
  loc := fun k args => lit (keyName k) ++ List.concat (map (fun a => lit " " ++ a) args);
  customerManagedKeyValue := lit "customerManaged";
  aes256AlgorithmValue := lit "AES256"
|}.

(** A one-wildcard glob: [*] stands for any run of code units without [/],
    every other code unit for itself. *)
Fixpoint starGlob (pat name : jsstring) : bool :=
  match pat with
  | [] => match name with [] => true | _ => false end
  | c :: pat' =>
      if N.eqb c star
      then (fix run (name : jsstring) : bool :=
              starGlob pat' name ||
              match name with
              | [] => false
              | x :: name' => negb (N.eqb x slash) && run name'
              end) name
      else match name with
           | [] => false
           | x :: name' => N.eqb x c && starGlob pat' name'
           end
  end.

#[export] Instance starMatcher : GlobLib := {| minimatch := starGlob |}.

(** A scripted S3: the bucket [bucket] exists; the request with a marker of
    [n] code units gets the [n]-th answer of the script. *)
Definition timeoutError : JsError := mkJsError (lit "TimeoutError") (lit "socket hang up").
Definition notFound : JsError := mkJsError (lit "NotFound") [].

Definition scripted (bucket : jsstring) (script : list (Settled ListObjectsOutput))
  : S3Client := {|
  headBucket := fun b => if strictEq b bucket then Fulfilled tt else Rejected notFound;
  listObjects := fun req =>
    nth (List.length (str (lo_Marker req))) script (Rejected timeoutError)
|}.

Definition obj (name : string) : S3Object := mkS3Object (lit name) 0.

(** Two pages; the first points to the second. *)
Definition page1 : ListObjectsOutput :=
  mkListObjectsOutput [obj "docs/a.txt"; obj "docs/_$folder$"] (Some (lit "1")).
Definition page2 : ListObjectsOutput :=
  mkListObjectsOutput [obj "docs/b.txt"; obj "docs/c.log"] None.

Definition goodS3 : S3Client :=
  scripted (lit "bkt") [Fulfilled page1; Fulfilled page2].

(** The same first page, but the request for the second page fails. *)
Definition flakyS3 : S3Client :=
  scripted (lit "bkt") [Fulfilled page1; Rejected timeoutError].

(** The pages are there, the bucket is not. *)
Definition noBucketS3 : S3Client :=
  scripted (lit "elsewhere") [Fulfilled page1; Fulfilled page2].

#[export] Instance oneRole : IamClient := {|
  getRole := fun name =>
    if strictEq name (lit "deployer")
    then Fulfilled (lit "arn:aws:iam::123456789012:role/deployer")
    else Rejected (mkJsError (lit "NoSuchEntity") (lit "role not found"))
|}.

Definition params (globs : list jsstring) (flatten overwrite_ : bool)
  : TaskParameters := {|
  bucketName := lit "bkt";
  sourceFolder := Some (lit "docs");
  targetFolder := lit "target";
  globExpressions := globs;
  flattenFolders := flatten;
  overwrite := overwrite_;
  keyManagement := lit "none";
  customerKey := []
|}.

Definition emptyWorld : World := mkWorld (FSys := listDisk) [] [].
Definition worldWith (paths : list jsstring) : World :=
  mkWorld (FSys := listDisk) paths [].

End Sample.

(** * The rest of [SdkUtils]

    [createAndConfigureSdkClient] registers one listener on every request,
    for its [complete] event; [setSdkUserAgentFromManifest] replaces the
    user agent of the SDK.  Values that the source only ever puts into a
    template literal or a string concatenation (paths, header values,
    the status code, version parts) are held as the text they render
    to. *)

Definition isDigit (c : N) : bool := N.leb 48 c && N.leb c 57.

(** A headers object: its own properties in [Object.keys] order. *)
Definition Headers := list (jsstring * jsstring).

Definition objectKeys (headers : Headers) : list jsstring := map fst headers.

(** [headers[name]], rendered. *)
Fixpoint headerValue (headers : Headers) (name : jsstring) : jsstring :=
  match headers with
  | [] => lit "undefined"
  | (k, v) :: headers' => if strictEq k name then v else headerValue headers' name
  end.

Record HttpRequest := mkHttpRequest {
  hq_path : jsstring;
  hq_headers : option Headers
}.

Record HttpResponse := mkHttpResponse {
  hs_statusCode : jsstring;
  hs_headers : option Headers
}.

Record AwsRequest := mkAwsRequest { rq_httpRequest : option HttpRequest }.

Record AwsResponse := mkAwsResponse {
  requestId : jsstring;
  request : option AwsRequest;
  httpResponse : option HttpResponse
}.

(** The task manifest as [JSON.parse] returns it. *)
Record ManifestVersion := mkManifestVersion {
  Major : jsstring;
  Minor : jsstring;
  Patch : jsstring
}.

Record TaskManifest := mkTaskManifest {
  mf_name : jsstring;
  mf_version : option ManifestVersion
}.

(** The [TypeError]s of the engine: reading a property of [undefined], and
    [Object.keys(undefined)]. *)
Class Engine := {
  cannotRead : jsstring -> JsError;
  cannotConvert : JsError
}.

(** What the SDK holds as its user agent, and what [console.warn] printed. *)
Record SdkGlobals := mkSdkGlobals {
  userAgent : jsstring;
  warnings : list jsstring
}.

Section SdkUtilities.

Context {PL : PathLib} {FSys : FileSys} {TL : TaskLib} {GL : GlobLib}
        {S3 : S3Client} {IAM : IamClient} {EN : Engine}.

Notation "x <- m ;; k" := (bind m (fun x => k))
  (at level 61, m at next level, right associativity).
Notation "m ;; k" := (bind m (fun _ => k))
  (at level 61, right associativity).

(** [try { body } catch (err) { handler }] *)
Definition tryCatch {A} (body : M A) (handler : JsError -> M A) : M A :=
  fun w =>
    match body w with
    | (w', Throw err) => handler err w'
    | r => r
    end.

(** The loop over the names of a headers object. *)
Definition logHeaders (logger : jsstring -> M unit) (headers : Headers) : M unit :=
  forEachM
    (fun _ element =>
       logger (lit "    " ++ element ++ lit "=" ++ headerValue headers element))
    (objectKeys headers) tt.

(** The listener of [createAndConfigureSdkClient] for [complete]. *)
Definition onComplete (logger : jsstring -> M unit)
    (logRequestData logResponseData : bool) (operation : jsstring)
    (response : AwsResponse) : M unit :=
  tryCatch
    (logger (lit "AWS " ++ operation ++ lit " request ID: " ++ requestId response) ;;
     httpRequest <-
       match request response with
       | Some r => ret (rq_httpRequest r)
       | None => throw (cannotRead (lit "httpRequest"))
       end ;;
     let httpResponse_ := httpResponse response in
     (if logRequestData
      then
        logger (lit "---Request data for " ++ requestId response ++ lit "---") ;;
        path <-
          match httpRequest with
          | Some h => ret (hq_path h)
          | None => throw (cannotRead (lit "path"))
          end ;;
        logger (lit "  Path: " ++ path) ;;
        logger (lit "  Headers:") ;;
        headers <-
          match httpRequest with
          | Some h =>
              match hq_headers h with
              | Some hs => ret hs
              | None => throw cannotConvert
              end
          | None => throw (cannotRead (lit "headers"))
          end ;;
        logHeaders logger headers
      else ret tt) ;;
     (if logResponseData
      then
        logger (lit "---Response data for request " ++ requestId response
                    ++ lit "---") ;;
        statusCode <-
          match httpResponse_ with
          | Some h => ret (hs_statusCode h)
          | None => throw (cannotRead (lit "statusCode"))
          end ;;
        logger (lit "  Status code: " ++ statusCode) ;;
        match httpResponse response with
        | Some h =>
            match hs_headers h with
            | Some hs =>
                logger (lit "  Headers:") ;;
                logHeaders logger hs
            | None => ret tt
            end
        | None => throw (cannotRead (lit "headers"))
        end
      else ret tt))
    (fun err =>
       logger (lit "  Error inspecting request/response data, "
                   ++ errToString err)).

(** [JSON.parse(fs.readFileSync(path, 'utf8'))] is [readManifest]. *)
Definition userAgentString (taskManifest : TaskManifest)
    (version : ManifestVersion) : jsstring :=
  lit "AWS-VSTS/"
  ++ Major version ++ lit "." ++ Minor version ++ lit "." ++ Patch version
  ++ lit " exec-env/VSTS-" ++ mf_name taskManifest.

Definition setSdkUserAgentFromManifest
    (readManifest : FS -> jsstring -> Settled TaskManifest)
    (taskManifestFilePath : jsstring) (d : FS) (g : SdkGlobals)
  : SdkGlobals * Outcome unit :=
  if existsSync d taskManifestFilePath
  then
    match readManifest d taskManifestFilePath with
    | Rejected e => (g, Throw e)
    | Fulfilled taskManifest =>
        match mf_version taskManifest with
        | None => (g, Throw (cannotRead (lit "Major")))
        | Some version =>
            (mkSdkGlobals (userAgentString taskManifest version) (warnings g),
             Ret tt)
        end
    end
  else
    (mkSdkGlobals (userAgent g)
       (warnings g
        ++ [lit "Task manifest " ++ taskManifestFilePath
            ++ lit " not found, cannot set custom user agent!"]),
     Ret tt).

(** ** More vocabulary *)

(** Whatever the outcome, [m] only appends events, and all of them
    satisfy [P]. *)
Definition Emits {A} (P : Event -> Prop) (m : M A) : Prop :=
  forall w, exists evs, out (fst (m w)) = out w ++ evs /\ Forall P evs.

Definition KeepsDisk {A} (m : M A) : Prop :=
  forall w, disk (fst (m w)) = disk w.

(** If [m] returns, its value satisfies [Q]. *)
Definition Returns {A} (Q : A -> Prop) (m : M A) : Prop :=
  forall w w' a, m w = (w', Ret a) -> Q a.

Definition NeverThrows {A} (m : M A) : Prop :=
  forall w w' e, m w <> (w', Throw e).

Definition NeverHangs {A} (m : M A) : Prop :=
  forall w w', m w <> (w', Hang).

(** A line written through [tl.debug]. *)
Definition debugEvent (ev : Event) : Prop :=
  match ev with
  | Debug _ => True
  | _ => False
  end.

(** The lines for the entries of a headers object. *)
Definition headerLines (headers : Headers) : list jsstring :=
  map (fun kv => lit "    " ++ fst kv ++ lit "=" ++ snd kv) headers.

(** The version parts are written with decimal digits only. *)
Definition numericVersion (version : ManifestVersion) : Prop :=
  Forall (fun c => isDigit c = true) (Major version) /\
  Forall (fun c => isDigit c = true) (Minor version) /\
  Forall (fun c => isDigit c = true) (Patch version).

(** Console output only. *)
Definition logEvent (ev : Event) : Prop :=
  match ev with
  | ConsoleLog _ | ConsoleError _ | Debug _ => True
  | _ => False
  end.

(** Console output, and page requests for the bucket and prefix of [p]. *)
Definition listerEvent (p : TaskParameters) (ev : Event) : Prop :=
  match ev with
  | ConsoleLog _ | ConsoleError _ | Debug _ => True
  | CallListObjects req =>
      lo_Bucket req = bucketName p /\ lo_Prefix req = sourceFolder p
  | _ => False
  end.

(** A key the task may download: not a folder marker, and accepted by one
    of the glob expressions. *)
Definition wanted (p : TaskParameters) (key : jsstring) : Prop :=
  keptKey key = true /\
  exists glob,
    In glob (globExpressions p) /\
    minimatch glob (keyToTest (sourceFolder p) key) = true.

(** What [downloadFiles] may do. *)
Definition taskEvent (p : TaskParameters) (ev : Event) : Prop :=
  match ev with
  | ConsoleLog _ | ConsoleError _ | Debug _ => True
  | CallListObjects req =>
      lo_Bucket req = bucketName p /\ lo_Prefix req = sourceFolder p
  | CallMkdirP dir =>
      dir = targetFolder p \/
      exists key, wanted p key /\ dir = dirname (resolveDest p key)
  | CallCreateWriteStream dest =>
      exists key, wanted p key /\ dest = resolveDest p key
  | CallGetObject req =>
      exists key, wanted p key /\ req = getObjectParams p key
  | CallHeadBucket _ | CallGetRole _ => False
  end.

(** A promise of [downloadFile] is born pending, or rejected with an
    error of [mkdirP]. *)
Definition bornWell (d : Download) : Prop :=
  dl_state d = Pending \/
  exists e dsk dir, dl_state d = Failed e /\ snd (mkdirP dsk dir) = Some e.

(** Every write stream opened by world [w] was open in [w0] already or
    belongs to one of [allDownloads]. *)
Definition streamsAccounted (w0 w : World) (allDownloads : list Download)
  : Prop :=
  forall dest,
    In (CallCreateWriteStream dest) (out w) ->
    In (CallCreateWriteStream dest) (out w0) \/
    exists d, In d allDownloads /\ dl_dest d = dest.

(** The page requests among the events, in order. *)
Fixpoint pageRequests (evs : list Event) : list ListObjectsRequest :=
  match evs with
  | [] => []
  | CallListObjects req :: evs' => req :: pageRequests evs'
  | _ :: evs' => pageRequests evs'
  end.

End SdkUtilities.

(** * More sample collaborators *)

Module SampleSdk.

Import Sample.

(** The texts of V8 for the two [TypeError]s. *)
#[export] Instance v8 : Engine := {|
  cannotRead := fun prop =>
    mkJsError (lit "TypeError")
      (lit "Cannot read property '" ++ prop ++ lit "' of undefined");
  cannotConvert :=
    mkJsError (lit "TypeError") (lit "Cannot convert undefined or null to object")
|}.

Definition sampleResponse : AwsResponse :=
  mkAwsResponse (lit "REQ1")
    (Some (mkAwsRequest
             (Some (mkHttpRequest (lit "/bkt?prefix=docs")
                      (Some [(lit "Host", lit "s3.amazonaws.com");
                             (lit "X-Amz-Date", lit "20180101T000000Z")])))))
    (Some (mkHttpResponse (lit "200")
             (Some [(lit "content-type", lit "application/xml")]))).

(** The decimal text of a version part of the sample manifests. *)
Fixpoint digitsOf (d : Decimal.uint) : jsstring :=
  match d with
  | Decimal.Nil => []
  | Decimal.D0 d' => 48%N :: digitsOf d'
  | Decimal.D1 d' => 49%N :: digitsOf d'
  | Decimal.D2 d' => 50%N :: digitsOf d'
  | Decimal.D3 d' => 51%N :: digitsOf d'
  | Decimal.D4 d' => 52%N :: digitsOf d'
  | Decimal.D5 d' => 53%N :: digitsOf d'
  | Decimal.D6 d' => 54%N :: digitsOf d'
  | Decimal.D7 d' => 55%N :: digitsOf d'
  | Decimal.D8 d' => 56%N :: digitsOf d'
  | Decimal.D9 d' => 57%N :: digitsOf d'
  end.

Definition versionPart (n : N) : jsstring := digitsOf (N.to_uint n).

(** Two manifest files with the same content. *)
Definition manifestOf (name : string) (major minor patch : N) : TaskManifest :=
  mkTaskManifest (lit name)
    (Some (mkManifestVersion (versionPart major) (versionPart minor)
                             (versionPart patch))).

Definition manifests (d : list jsstring) (path : jsstring) : Settled TaskManifest :=
  if strictEq path (lit "S3Download/task.json")
  then Fulfilled (manifestOf "S3Download" 1 0 21)
  else if strictEq path (lit "copy/task.json")
       then Fulfilled (manifestOf "S3Download" 1 0 21)
       else Rejected (mkJsError (lit "SyntaxError") (lit "Unexpected end of JSON input")).

Definition manifestDisk : list jsstring :=
  [lit "S3Download/task.json"; lit "copy/task.json"].

Definition defaultGlobals : SdkGlobals := mkSdkGlobals (lit "aws-sdk-nodejs/2.x") [].

(** A disk on which [target/docs] cannot be created. *)
Definition accessDenied : JsError :=
  mkJsError (lit "Error") (lit "EACCES: permission denied, mkdir 'target/docs'").

Definition readOnlyDocs : FileSys := {|
  FS := list jsstring;
  existsSync := fun d p => existsb (strictEq p) d;
  mkdirP := fun d p =>
    if strictEq p (lit "target/docs") then (d, Some accessDenied)
    else (p :: d, None);
  createWriteStream := fun d p => p :: d
|}.

End SampleSdk.

(** * Properties *)

Section Properties.

Context {PL : PathLib} {FSys : FileSys} {TL : TaskLib} {GL : GlobLib}
        {S3 : S3Client} {IAM : IamClient}.

Notation "x <- m ;; k" := (bind m (fun x => k))
  (at level 61, m at next level, right associativity).
Notation "m ;; k" := (bind m (fun _ => k))
  (at level 61, right associativity).

(** ** The monad *)

Lemma bind_ret_run A B (m : M A) (k : A -> M B) w w' a :
  m w = (w', Ret a) -> bind m k w = k a w'.
Proof. intros H. unfold bind. now rewrite H. Qed.

Lemma bind_throw_run A B (m : M A) (k : A -> M B) w w' e :
  m w = (w', Throw e) -> bind m k w = (w', Throw e).
Proof. intros H. unfold bind. now rewrite H. Qed.

Lemma bind_inv_ret A B (m : M A) (k : A -> M B) w w' b :
  bind m k w = (w', Ret b) ->
  exists w1 a, m w = (w1, Ret a) /\ k a w1 = (w', Ret b).
Proof.
  unfold bind. destruct (m w) as [w1 [a | e |]]; intros H; try discriminate.
  now exists w1, a.
Qed.

Lemma forEachM_app A B (f : B -> A -> M B) l1 l2 acc w :
  forEachM f (l1 ++ l2) acc w
  = (acc' <- forEachM f l1 acc ;; forEachM f l2 acc') w.
Proof.
  revert acc w. induction l1 as [| x l1 IH]; intros acc w; simpl.
  - reflexivity.
  - unfold bind at 1 2 3.
    destruct (f acc x w) as [w1 [acc1 | e |]]; try reflexivity.
    rewrite IH. reflexivity.
Qed.

(** A loop that gets through [l1] and throws on [x] throws as a whole, in
    the world where [x] threw. *)
Lemma forEachM_throws_at A B (f : B -> A -> M B) l1 x l2 acc w w1 acc1 w2 e :
  forEachM f l1 acc w = (w1, Ret acc1) ->
  f acc1 x w1 = (w2, Throw e) ->
  forEachM f (l1 ++ x :: l2) acc w = (w2, Throw e).
Proof.
  intros H1 H2. rewrite forEachM_app.
  erewrite bind_ret_run by exact H1. simpl.
  erewrite bind_throw_run by exact H2. reflexivity.
Qed.

(** ** Strings *)

Lemma isPrefixOf_app p s : isPrefixOf p (p ++ s) = true.
Proof.
  induction p as [| a p IH]; simpl; [reflexivity |].
  now rewrite N.eqb_refl, IH.
Qed.

Lemma isPrefixOf_inv p s :
  isPrefixOf p s = true -> exists t, s = p ++ t.
Proof.
  revert s. induction p as [| a p IH]; intros s H; simpl in *.
  - now exists s.
  - destruct s as [| b s]; [discriminate |].
    apply andb_true_iff in H as [Hab Hp].
    apply N.eqb_eq in Hab. subst b.
    destruct (IH _ Hp) as [t ->]. now exists t.
Qed.

(** [endsWith] is the literal suffix test. *)
Lemma endsWith_iff s suffix :
  endsWith s suffix = true <-> exists t, s = t ++ suffix.
Proof.
  unfold endsWith. split.
  - intros H. apply isPrefixOf_inv in H as [t Ht].
    exists (rev t). rewrite <- (rev_involutive s), Ht, rev_app_distr.
    now rewrite rev_involutive.
  - intros [t ->]. rewrite rev_app_distr. apply isPrefixOf_app.
Qed.

Lemma startsWith_iff s prefix :
  startsWith s prefix = true <-> exists t, s = prefix ++ t.
Proof.
  unfold startsWith. split.
  - apply isPrefixOf_inv.
  - intros [t ->]. apply isPrefixOf_app.
Qed.

(** ** The key lister *)

Lemma pushKeys_filter contents allKeys :
  pushKeys allKeys contents
  = allKeys ++ filter keptKey (map Key contents).
Proof.
  unfold pushKeys. revert allKeys.
  induction contents as [| o contents IH]; intros allKeys; simpl.
  - now rewrite app_nil_r.
  - rewrite IH. unfold keptKey at 2, isFolderMarker.
    destruct (endsWith (Key o) folderMarker); simpl.
    + reflexivity.
    + now rewrite <- app_assoc.
Qed.

(** With a budget above the number of pages, the loop returns what the
    pages hold, and only calls the service and the console. *)
Lemma fetchPages_paged p marker pgs stop :
  Paged p marker pgs stop ->
  forall fuel allKeys w,
    List.length pgs < fuel ->
    exists evs,
      fetchPages p fuel marker allKeys w
      = (mkWorld (disk w) (out w ++ evs),
         Ret (allKeys ++ filter keptKey (flat_map pageKeys pgs))) /\
      (forall e, stop = PageFailed e -> exists evs', evs = evs' ++ [ConsoleError e]).
Proof.
  induction 1 as [marker e Hreq | marker pg Hreq Hnext
                 | marker pg pgs stop Hreq Hnext Hrest IH];
    intros fuel allKeys w Hfuel;
    (destruct fuel as [| fuel]; [simpl in Hfuel; lia |]).
  - exists [CallListObjects
              (mkListObjectsRequest (bucketName p) (sourceFolder p) marker);
            ConsoleError e].
    split.
    + simpl. unfold await, bind, emit, ret, consoleError, emit.
      rewrite Hreq. simpl. rewrite app_nil_r, <- app_assoc. reflexivity.
    + intros e' [= <-]. now exists [CallListObjects
              (mkListObjectsRequest (bucketName p) (sourceFolder p) marker)].
  - exists [CallListObjects
              (mkListObjectsRequest (bucketName p) (sourceFolder p) marker)].
    split.
    + simpl. unfold await, bind, emit, ret.
      rewrite Hreq, Hnext, pushKeys_filter. simpl.
      unfold pageKeys. now rewrite app_nil_r.
    + discriminate.
  - simpl in Hfuel.
    destruct (IH fuel (pushKeys allKeys (Contents pg))
                (mkWorld (disk w)
                   (out w ++ [CallListObjects
                      (mkListObjectsRequest (bucketName p) (sourceFolder p) marker)])))
      as [evs [Hrun Hlast]]; [lia |].
    exists (CallListObjects
              (mkListObjectsRequest (bucketName p) (sourceFolder p) marker) :: evs).
    split.
    + simpl. unfold await, bind at 1 2, emit, ret.
      rewrite Hreq, Hnext, Hrun. simpl.
      rewrite pushKeys_filter, filter_app, <- !app_assoc. reflexivity.
    + intros e He. destruct (Hlast e He) as [evs' ->].
      now exists (CallListObjects
              (mkListObjectsRequest (bucketName p) (sourceFolder p) marker) :: evs').
Qed.

Lemma fetchAllObjectKeys_paged p pgs stop fuel w :
  Paged p None pgs stop ->
  List.length pgs < fuel ->
  exists evs,
    fetchAllObjectKeys p fuel w
    = (mkWorld (disk w) (out w ++ evs),
       Ret (filter keptKey (flat_map pageKeys pgs))) /\
    (forall e, stop = PageFailed e -> exists evs', evs = evs' ++ [ConsoleError e]).
Proof.
  intros Hpaged Hfuel. unfold fetchAllObjectKeys.
  set (announce := if truthy (sourceFolder p)
                   then loc ListingKeysFromPrefix [str (sourceFolder p); bucketName p]
                   else loc ListingKeysFromRoot [bucketName p]).
  destruct (fetchPages_paged Hpaged (fuel := fuel) []
              (mkWorld (disk w) (out w ++ [ConsoleLog announce])) Hfuel)
    as [evs [Hrun Hlast]].
  exists (ConsoleLog announce :: evs). split.
  - assert (Hlog :
      (if truthy (sourceFolder p)
       then consoleLog (loc ListingKeysFromPrefix [str (sourceFolder p); bucketName p])
       else consoleLog (loc ListingKeysFromRoot [bucketName p])) w
      = (mkWorld (disk w) (out w ++ [ConsoleLog announce]), Ret tt)).
    { unfold announce. now destruct (truthy (sourceFolder p)). }
    erewrite bind_ret_run by exact Hlog.
    rewrite Hrun. simpl. now rewrite <- app_assoc.
  - intros e He. destruct (Hlast e He) as [evs' ->].
    now exists (ConsoleLog announce :: evs').
Qed.

(** C1 (amended): when a page request of the paginated listing fails, the
    key-listing operation does not fail.  It reports the error on the
    console, stops paginating, and returns the keys it kept from the pages
    received before the failed request. *)
Theorem fetchAllObjectKeys_swallows_page_failure p pgs e fuel w :
  Paged p None pgs (PageFailed e) ->
  List.length pgs < fuel ->
  exists evs,
    fetchAllObjectKeys p fuel w
    = (mkWorld (disk w) (out w ++ evs ++ [ConsoleError e]),
       Ret (filter keptKey (flat_map pageKeys pgs))).
Proof.
  intros Hpaged Hfuel.
  destruct (fetchAllObjectKeys_paged w Hpaged Hfuel) as [evs [Hrun Hlast]].
  destruct (Hlast e eq_refl) as [evs' ->].
  now exists evs'.
Qed.

(** C2: whatever pages the listing receives, the keys it returns are the
    keys of those pages, in order, without the keys that end with the
    literal suffix [_$folder$]: each such key is left out and every other
    key of every page is kept. *)
Theorem fetchAllObjectKeys_drops_folder_markers p pgs stop fuel w :
  Paged p None pgs stop ->
  List.length pgs < fuel ->
  exists w' allKeys,
    fetchAllObjectKeys p fuel w = (w', Ret allKeys) /\
    allKeys = filter keptKey (flat_map pageKeys pgs) /\
    forall key,
      In key allKeys <->
      In key (flat_map pageKeys pgs) /\ ~ (exists t, key = t ++ lit "_$folder$").
Proof.
  intros Hpaged Hfuel.
  destruct (fetchAllObjectKeys_paged w Hpaged Hfuel) as [evs [Hrun _]].
  eexists. eexists. split; [exact Hrun |]. split; [reflexivity |].
  intros key. rewrite filter_In. unfold keptKey, isFolderMarker.
  rewrite negb_true_iff, <- not_true_iff_false, endsWith_iff.
  reflexivity.
Qed.

(** ** The glob matcher *)

Lemma matchLoop_run glob n allKeys matchedKeys w :
  forEachM
    (fun matchedKeys key =>
       let keyToTest := substring key n in
       if minimatch glob keyToTest
       then debug (loc MatchedKey [key]) ;; ret (matchedKeys ++ [key])
       else ret matchedKeys)
    allKeys matchedKeys w
  = (mkWorld (disk w)
       (out w ++ map (fun key => Debug (loc MatchedKey [key]))
                     (filter (fun key => minimatch glob (skipn n key)) allKeys)),
     Ret (matchedKeys
            ++ filter (fun key => minimatch glob (skipn n key)) allKeys)).
Proof.
  revert matchedKeys w.
  induction allKeys as [| key allKeys IH]; intros matchedKeys w; simpl.
  - rewrite !app_nil_r. now destruct w.
  - unfold bind at 1. unfold substring at 1.
    destruct (minimatch glob (skipn n key)); simpl.
    + unfold bind at 1. simpl. rewrite IH. simpl.
      now rewrite <- !app_assoc.
    + apply IH.
Qed.

Lemma matchObjectKeys_run allKeys sourcePrefix glob w :
  exists evs,
    matchObjectKeys allKeys sourcePrefix glob w
    = (mkWorld (disk w) (out w ++ evs),
       Ret (filter (fun key => minimatch glob (keyToTest sourcePrefix key)) allKeys)).
Proof.
  unfold matchObjectKeys, keyToTest.
  destruct (truthy sourcePrefix).
  - erewrite bind_ret_run by reflexivity.
    rewrite matchLoop_run. simpl. rewrite <- app_assoc.
    eexists. reflexivity.
  - erewrite bind_ret_run by reflexivity.
    rewrite matchLoop_run. simpl. rewrite <- app_assoc.
    eexists. reflexivity.
Qed.

(** C3: with a source prefix configured, the matcher tests each key
    without its first [length sourcePrefix + 1] code units, and with none
    configured it tests the key as it is; it returns exactly the keys whose
    tested name satisfies the glob. *)
Theorem matchObjectKeys_tests_stripped_keys allKeys sourcePrefix glob w :
  let n := if truthy sourcePrefix then List.length (str sourcePrefix) + 1 else 0 in
  exists w' matchedKeys,
    matchObjectKeys allKeys sourcePrefix glob w = (w', Ret matchedKeys) /\
    matchedKeys = filter (fun key => minimatch glob (skipn n key)) allKeys /\
    (forall key : jsstring, firstn n key ++ skipn n key = key) /\
    (forall key,
       In key matchedKeys <->
       In key allKeys /\ minimatch glob (skipn n key) = true).
Proof.
  intros n.
  destruct (matchObjectKeys_run allKeys sourcePrefix glob w) as [evs Hrun].
  assert (Hn : forall key, keyToTest sourcePrefix key = skipn n key).
  { intros key. unfold keyToTest, n, substring.
    now destruct (truthy sourcePrefix). }
  eexists. eexists. split; [exact Hrun |]. split; [| split].
  - apply filter_ext. intros key. now rewrite Hn.
  - intros key. apply firstn_skipn.
  - intros key. rewrite filter_In, Hn. reflexivity.
Qed.

Lemma strictEq_eq a b : strictEq a b = true <-> a = b.
Proof.
  revert b. induction a as [| x a IH]; intros [| y b]; simpl;
    try (split; [discriminate | discriminate]); [tauto |].
  rewrite andb_true_iff, N.eqb_eq, IH. split.
  - now intros [-> ->].
  - now intros [= -> ->].
Qed.

Lemma strictEq_refl a : strictEq a a = true.
Proof. now apply strictEq_eq. Qed.

Lemma Subseq_filter A (f : A -> bool) l : Subseq (filter f l) l.
Proof.
  induction l as [| x l IH]; simpl.
  - constructor.
  - destruct (f x); now constructor.
Qed.

Lemma occurrences_filter_le f key l :
  occurrences key (filter f l) <= occurrences key l.
Proof.
  unfold occurrences. induction l as [| x l IH]; simpl; [lia |].
  destruct (f x); simpl; destruct (strictEq key x); simpl; lia.
Qed.

(** C10: the matcher returns a subsequence of the key list it is given:
    full keys of the input, in the input's order, none invented and none
    more often than it occurs in the input. *)
Theorem matchObjectKeys_subsequence allKeys sourcePrefix glob w :
  exists w' matchedKeys,
    matchObjectKeys allKeys sourcePrefix glob w = (w', Ret matchedKeys) /\
    Subseq matchedKeys allKeys /\
    (forall key, In key matchedKeys -> In key allKeys) /\
    (forall key, occurrences key matchedKeys <= occurrences key allKeys).
Proof.
  destruct (matchObjectKeys_run allKeys sourcePrefix glob w) as [evs Hrun].
  eexists. eexists. split; [exact Hrun |]. split; [| split].
  - apply Subseq_filter.
  - intros key Hin. now apply filter_In in Hin.
  - intros key. apply occurrences_filter_le.
Qed.

(** ** Destination paths and queueing *)

Lemma go_Key_getObjectParams p key : go_Key (getObjectParams p key) = key.
Proof.
  unfold getObjectParams.
  now destruct (strictEq (keyManagement p) customerManagedKeyValue).
Qed.

(** [downloadFile] always hands back a promise, pending or born rejected. *)
Lemma downloadFile_run s3Params dest w :
  exists evs d st,
    downloadFile s3Params dest w
    = (mkWorld d (out w ++ evs), Ret (mkDownload s3Params dest st)) /\
    (st = Pending \/ exists e, st = Failed e).
Proof.
  unfold downloadFile, newPromise, bind, fsExistsSync, tlMkdirP,
    fsCreateWriteStream, emit, ret. simpl.
  destruct (existsSync (disk w) (dirname dest)); simpl.
  - eexists [_; _], _, _. split; [| now left].
    rewrite <- app_assoc. reflexivity.
  - destruct (mkdirP (disk w) (dirname dest)) as [d [e |]]; simpl.
    + eexists [_], _, _. split; [reflexivity | right; now exists e].
    + eexists [_; _; _], _, _. split; [| now left].
      rewrite <- !app_assoc. reflexivity.
Qed.

Lemma queueMatch_refuses p allDownloads matchedKey w :
  existsSync (disk w) (resolveDest p matchedKey) = true ->
  overwrite p = false ->
  queueMatch p allDownloads matchedKey w
  = (w, Throw (Error (loc FileExistsError [resolveDest p matchedKey; matchedKey]))).
Proof.
  intros Hex Hov. unfold queueMatch, bind, fsExistsSync, throw.
  now rewrite Hex, Hov.
Qed.

Lemma queueMatch_overwrites p allDownloads matchedKey w :
  existsSync (disk w) (resolveDest p matchedKey) = true ->
  overwrite p = true ->
  exists w' st evs,
    queueMatch p allDownloads matchedKey w
    = (w', Ret (allDownloads
                  ++ [mkDownload (getObjectParams p matchedKey)
                                 (resolveDest p matchedKey) st])) /\
    out w' = out w
             ++ ConsoleLog (loc FileOverwriteWarning
                              [resolveDest p matchedKey; matchedKey])
             :: ConsoleLog (loc QueueingDownload [matchedKey]) :: evs.
Proof.
  intros Hex Hov. unfold queueMatch.
  unfold bind at 1. unfold fsExistsSync at 1. rewrite Hex, Hov.
  unfold bind at 1 2. unfold consoleLog, emit. simpl.
  set (w2 := mkWorld _ _).
  destruct (downloadFile_run (getObjectParams p matchedKey)
              (resolveDest p matchedKey) w2) as [evs [d [st [Hrun _]]]].
  unfold bind, ret. rewrite Hrun.
  eexists _, st, evs. split; [reflexivity |].
  unfold w2. simpl. now rewrite <- !app_assoc.
Qed.

Lemma queueMatch_ret p allDownloads matchedKey w w' ds :
  queueMatch p allDownloads matchedKey w = (w', Ret ds) ->
  exists st,
    ds = allDownloads
           ++ [mkDownload (getObjectParams p matchedKey)
                          (resolveDest p matchedKey) st].
Proof.
  unfold queueMatch. intros H.
  apply bind_inv_ret in H as [w1 [ex [_ H]]].
  apply bind_inv_ret in H as [w2 [[] [_ H]]].
  apply bind_inv_ret in H as [w3 [[] [_ H]]].
  apply bind_inv_ret in H as [w4 [d [Hd H]]].
  destruct (downloadFile_run (getObjectParams p matchedKey)
              (resolveDest p matchedKey) w3) as [evs [dk [st [Hrun _]]]].
  rewrite Hrun in Hd. injection Hd as _ <-.
  injection H as _ <-. now exists st.
Qed.

Lemma queueMatches_ret p keys allDownloads w w' ds :
  forEachM (queueMatch p) keys allDownloads w = (w', Ret ds) ->
  exists queued, ds = allDownloads ++ queued /\ Forall2 (queuedFor p) keys queued.
Proof.
  revert allDownloads w. induction keys as [| key keys IH]; intros acc w H; simpl in H.
  - injection H as _ <-. exists []. now rewrite app_nil_r.
  - apply bind_inv_ret in H as [w1 [acc1 [Hstep H]]].
    apply queueMatch_ret in Hstep as [st ->].
    apply IH in H as [queued [-> Hq]].
    eexists (_ :: queued). split.
    + now rewrite <- app_assoc.
    + constructor; [now split | exact Hq].
Qed.

Lemma queueGlobs_ret p allKeys globs allDownloads w w' ds :
  forEachM (queueGlob p allKeys) globs allDownloads w = (w', Ret ds) ->
  exists queued,
    ds = allDownloads ++ queued /\
    Forall2 (queuedFor p)
      (flat_map
         (fun glob =>
            filter (fun key => minimatch glob (keyToTest (sourceFolder p) key)) allKeys)
         globs)
      queued.
Proof.
  revert allDownloads w. induction globs as [| glob globs IH]; intros acc w H; simpl in H.
  - injection H as _ <-. exists []. rewrite app_nil_r. split; [reflexivity | constructor].
  - apply bind_inv_ret in H as [w1 [acc1 [Hstep H]]].
    unfold queueGlob in Hstep.
    apply bind_inv_ret in Hstep as [w2 [matched [Hmatch Hstep]]].
    destruct (matchObjectKeys_run allKeys (sourceFolder p) glob w) as [evs Hrun].
    rewrite Hrun in Hmatch. injection Hmatch as _ <-.
    apply queueMatches_ret in Hstep as [q1 [-> Hq1]].
    apply IH in H as [q2 [-> Hq2]].
    exists (q1 ++ q2). split.
    + now rewrite <- app_assoc.
    + simpl. now apply Forall2_app.
Qed.

Lemma downloadFiles_ret p fuel w w' allDownloads :
  downloadFiles p fuel w = (w', Ret allDownloads) ->
  exists w0 allKeys,
    listStage p fuel w = (w0, Ret allKeys) /\
    Forall2 (queuedFor p)
      (flat_map
         (fun glob =>
            filter (fun key => minimatch glob (keyToTest (sourceFolder p) key)) allKeys)
         (globExpressions p))
      allDownloads.
Proof.
  unfold downloadFiles. intros H.
  apply bind_inv_ret in H as [w0 [allKeys [Hlist H]]].
  apply queueGlobs_ret in H as [queued [-> Hq]].
  now exists w0, allKeys.
Qed.

Lemma queueMatch_outcome p allDownloads matchedKey w :
  exists w',
    queueMatch p allDownloads matchedKey w
    = (w', Throw (Error (loc FileExistsError
                           [resolveDest p matchedKey; matchedKey]))) \/
    exists st,
      queueMatch p allDownloads matchedKey w
      = (w', Ret (allDownloads
                    ++ [mkDownload (getObjectParams p matchedKey)
                                   (resolveDest p matchedKey) st])).
Proof.
  destruct (existsSync (disk w) (resolveDest p matchedKey)) eqn:Hex;
    [destruct (overwrite p) eqn:Hov |].
  - destruct (queueMatch_overwrites p allDownloads matchedKey w Hex Hov)
      as (w' & st & evs & Hrun & _).
    exists w'. right. now exists st.
  - exists w. left. now apply queueMatch_refuses.
  - unfold queueMatch.
    erewrite bind_ret_run by reflexivity. rewrite Hex.
    erewrite bind_ret_run by reflexivity.
    erewrite bind_ret_run by reflexivity.
    match goal with
    | |- context [bind (downloadFile ?a ?b) _ ?w2] =>
        destruct (downloadFile_run a b w2) as [evs [d [st [Hrun _]]]]
    end.
    erewrite bind_ret_run by exact Hrun.
    eexists. right. exists st. reflexivity.
Qed.

(** C4: the destination of a match is fixed by its key, the target folder
    and the flatten flag: the target folder joined with the key's basename
    when flattening, and with the full key otherwise.  That path is the one
    named in the collision error and the one the download is queued with,
    for each match and for every download of a completed queue. *)
Theorem downloadFiles_destinations p :
  let destOf := fun key =>
    if flattenFolders p
    then join (targetFolder p) (basename key)
    else join (targetFolder p) key in
  (forall allDownloads matchedKey w,
     exists w',
       queueMatch p allDownloads matchedKey w
       = (w', Throw (Error (loc FileExistsError
                              [destOf matchedKey; matchedKey]))) \/
       exists st,
         queueMatch p allDownloads matchedKey w
         = (w', Ret (allDownloads
                       ++ [mkDownload (getObjectParams p matchedKey)
                                      (destOf matchedKey) st]))) /\
  (forall fuel w w' allDownloads,
     downloadFiles p fuel w = (w', Ret allDownloads) ->
     Forall (fun d => dl_dest d = destOf (keyOf d)) allDownloads).
Proof.
  intros destOf.
  assert (Hdest : forall key, resolveDest p key = destOf key).
  { intros key. unfold resolveDest, destOf. now destruct (flattenFolders p). }
  split.
  - intros allDownloads matchedKey w. rewrite <- Hdest.
    apply queueMatch_outcome.
  - intros fuel w w' allDownloads H.
    apply downloadFiles_ret in H as [w0 [allKeys [_ Hq]]].
    induction Hq as [| key d keys ds [Hparams Hd] _ IH]; constructor.
    + unfold keyOf. now rewrite Hparams, go_Key_getObjectParams, Hd, Hdest.
    + exact IH.
Qed.

Lemma occurrences_app key l1 l2 :
  occurrences key (l1 ++ l2) = occurrences key l1 + occurrences key l2.
Proof. unfold occurrences. now rewrite filter_app, length_app. Qed.

Lemma occurrences_filter f key l :
  occurrences key (filter f l) = if f key then occurrences key l else 0.
Proof.
  unfold occurrences. induction l as [| x l IH]; simpl.
  - now destruct (f key).
  - destruct (strictEq key x) eqn:Hx.
    + apply strictEq_eq in Hx. subst x.
      destruct (f key) eqn:Hf; simpl.
      * rewrite strictEq_refl. simpl. rewrite IH. reflexivity.
      * exact IH.
    + destruct (f x); simpl; [rewrite Hx |]; exact IH.
Qed.

Lemma occurrences_matches (test : jsstring -> jsstring -> bool) key allKeys globs :
  occurrences key (flat_map (fun glob => filter (test glob) allKeys) globs)
  = occurrences key allKeys
    * List.length (filter (fun glob => test glob key) globs).
Proof.
  induction globs as [| glob globs IH]; simpl.
  - now rewrite Nat.mul_0_r.
  - rewrite occurrences_app, occurrences_filter, IH.
    destruct (test glob key); simpl; lia.
Qed.

Lemma queuedFor_keys p keys queued :
  Forall2 (queuedFor p) keys queued -> map keyOf queued = keys.
Proof.
  induction 1 as [| key d keys ds [Hparams _] _ IH]; simpl.
  - reflexivity.
  - unfold keyOf at 1. now rewrite Hparams, go_Key_getObjectParams, IH.
Qed.

(** C6: the keys of the queued downloads are the matches of the first
    glob, then those of the second, and so on, with nothing merged: a
    listed key is queued once for each glob expression it satisfies. *)
Theorem downloadFiles_no_dedup p fuel w w' allDownloads :
  downloadFiles p fuel w = (w', Ret allDownloads) ->
  exists w0 allKeys,
    listStage p fuel w = (w0, Ret allKeys) /\
    map keyOf allDownloads
    = flat_map
        (fun glob =>
           filter (fun key => minimatch glob (keyToTest (sourceFolder p) key)) allKeys)
        (globExpressions p) /\
    forall key,
      occurrences key (map keyOf allDownloads)
      = occurrences key allKeys
        * List.length
            (filter (fun glob => minimatch glob (keyToTest (sourceFolder p) key))
                    (globExpressions p)).
Proof.
  intros H. apply downloadFiles_ret in H as [w0 [allKeys [Hlist Hq]]].
  exists w0, allKeys. split; [exact Hlist |].
  apply queuedFor_keys in Hq. split; [exact Hq |].
  intros key. rewrite Hq.
  apply (occurrences_matches
           (fun glob key => minimatch glob (keyToTest (sourceFolder p) key))).
Qed.

(** ** The pre-flight check *)

(** C7: when the bucket check fails, [execute] throws the
    [BucketNotExist] error having done nothing but the check: its only
    event is the [headBucket] call, so no listing and no download. *)
Theorem execute_aborts_without_bucket p fuel sched w e :
  headBucket (bucketName p) = Rejected e ->
  execute p fuel sched w
  = (mkWorld (disk w) (out w ++ [CallHeadBucket (bucketName p)]),
     Throw (Error (loc BucketNotExist [bucketName p]))).
Proof.
  intros Hhead. unfold execute, testBucketExists, await, bind, emit, ret, throw.
  rewrite Hhead. reflexivity.
Qed.

(** ** One transfer *)

Lemma transfer_settled st evs :
  st <> Pending -> transfer st evs = st.
Proof.
  unfold transfer. induction evs as [| ev evs IH]; intros Hst; simpl.
  - reflexivity.
  - destruct st; [congruence | |]; now apply IH.
Qed.

Lemma transfer_pending_cons ev evs :
  transfer Pending (ev :: evs)
  = match ev with
    | Chunk => transfer Pending evs
    | SourceError e => Failed e
    | SinkError e => Failed e
    | SinkClose => Resolved
    end.
Proof.
  destruct ev; simpl; try reflexivity;
    now apply (transfer_settled evs).
Qed.

Lemma transfer_skips_chunks pre rest :
  Forall (fun ev => ev = Chunk) pre ->
  transfer Pending (pre ++ rest) = transfer Pending rest.
Proof.
  induction 1 as [| x pre -> _ IH]; [reflexivity |].
  simpl app. now rewrite transfer_pending_cons.
Qed.

Lemma transfer_fails_on_error pre ev post e :
  reportsError ev = Some e ->
  ~ In SinkClose pre ->
  exists e', transfer Pending (pre ++ ev :: post) = Failed e'.
Proof.
  intros Hev. induction pre as [| x pre IH]; intros Hclose.
  - simpl app. rewrite transfer_pending_cons.
    destruct ev; try discriminate; now eexists.
  - simpl app. rewrite transfer_pending_cons.
    destruct x.
    + apply IH. intros Hin. apply Hclose. now right.
    + now eexists.
    + now eexists.
    + exfalso. apply Hclose. now left.
Qed.

Lemma transfer_resolved_inv evs :
  transfer Pending evs = Resolved ->
  exists pre post,
    evs = pre ++ SinkClose :: post /\ Forall (fun ev => ev = Chunk) pre.
Proof.
  induction evs as [| ev evs IH]; [discriminate |].
  rewrite transfer_pending_cons. destruct ev; try discriminate.
  - intros H. destruct (IH H) as (pre & post & -> & Hpre).
    exists (Chunk :: pre), post. split; [reflexivity | now constructor].
  - intros _. exists [], evs. split; [reflexivity | constructor].
Qed.

(** C8: [downloadFile] hands back a promise for which an error reported
    by the source stream or by the sink before the sink has closed means
    failure (with that very error when only data came before it), and
    which is fulfilled only if the sink reported [close], with nothing but
    data before that. *)
Theorem downloadFile_settles s3Params dest w evs :
  exists w' d,
    downloadFile s3Params dest w = (w', Ret d) /\
    dl_params d = s3Params /\ dl_dest d = dest /\
    (forall pre ev post e,
       evs = pre ++ ev :: post ->
       reportsError ev = Some e ->
       ~ In SinkClose pre ->
       exists e', transfer (dl_state d) evs = Failed e') /\
    (forall pre ev post e,
       evs = pre ++ ev :: post ->
       reportsError ev = Some e ->
       Forall (fun ev => ev = Chunk) pre ->
       dl_state d = Pending ->
       transfer (dl_state d) evs = Failed e) /\
    (transfer (dl_state d) evs = Resolved ->
     exists pre post,
       evs = pre ++ SinkClose :: post /\ Forall (fun ev => ev = Chunk) pre).
Proof.
  destruct (downloadFile_run s3Params dest w) as [evs0 [dk [st [Hrun Hst]]]].
  eexists. eexists. split; [exact Hrun |]. simpl.
  split; [reflexivity |]. split; [reflexivity |].
  split; [| split].
  - intros pre ev post e -> Hev Hclose.
    destruct Hst as [-> | [e0 ->]].
    + eapply transfer_fails_on_error; eassumption.
    + exists e0. now apply transfer_settled.
  - intros pre ev post e -> Hev Hpre ->.
    rewrite transfer_skips_chunks by exact Hpre.
    rewrite transfer_pending_cons.
    destruct ev; try discriminate; now injection Hev as ->.
  - destruct Hst as [-> | [e0 ->]].
    + apply transfer_resolved_inv.
    + rewrite transfer_settled by discriminate. discriminate.
Qed.

(** ** Role names *)

(** C9: a role name that starts with [arn:] comes back unchanged, with no
    call made; any other name is looked up with [getRole], whose ARN is
    returned, and a failed lookup is thrown as a new error that carries the
    text of the cause. *)
Theorem roleArnFromName_resolves roleName w :
  ((exists rest, roleName = lit "arn:" ++ rest) ->
   roleArnFromName roleName w = (w, Ret roleName)) /\
  (~ (exists rest, roleName = lit "arn:" ++ rest) ->
   exists w',
     out w' = out w
              ++ [ConsoleLog
                    (lit "Attempting to retrieve Amazon Resource Name (ARN) for role "
                         ++ roleName);
                  CallGetRole roleName] /\
     roleArnFromName roleName w
     = (w', match getRole roleName with
            | Fulfilled arn => Ret arn
            | Rejected err =>
                Throw (Error (lit "Error while obtaining ARN: " ++ errToString err))
            end)).
Proof.
  unfold roleArnFromName. split.
  - intros Harn. apply startsWith_iff in Harn. now rewrite Harn.
  - intros Hname.
    destruct (startsWith roleName (lit "arn:")) eqn:Hstart.
    + exfalso. apply Hname. now apply startsWith_iff.
    + unfold bind, consoleLog, await, emit, ret, throw. simpl.
      eexists. split; [| destruct (getRole roleName); reflexivity].
      simpl. now rewrite <- app_assoc.
Qed.

End Properties.

(** * Concrete runs

    The task on the sample collaborators: the object [docs/a.txt] and a
    folder marker on the first page, [docs/b.txt] and [docs/c.log] on the
    second. *)

Import Sample.

(** The request for the second page fails; the listing still returns, with
    the one key of the first page. *)
Lemma fetchAllObjectKeys_returns_partial_listing :
  let p := params [lit "*.txt"] false false in
  let run := fetchAllObjectKeys (S3 := flakyS3) p 5 emptyWorld in
  listObjects (S3Client := flakyS3)
    (mkListObjectsRequest (bucketName p) (sourceFolder p) (Some (lit "1")))
  = Rejected timeoutError /\
  In (CallListObjects
        (mkListObjectsRequest (bucketName p) (sourceFolder p) (Some (lit "1"))))
     (out (fst run)) /\
  snd run = Ret [lit "docs/a.txt"] /\
  (forall e, snd run <> Throw e).
Proof.
  vm_compute. split; [reflexivity |]. split; [tauto |].
  split; [reflexivity | discriminate].
Qed.

Lemma fetchAllObjectKeys_swallows_page_failure_witness :
  let p := params [lit "*.txt"] false false in
  Paged (S3 := flakyS3) p None [page1] (PageFailed timeoutError) /\
  1 < 5 /\
  exists evs,
    fetchAllObjectKeys (S3 := flakyS3) p 5 emptyWorld
    = (mkWorld (disk emptyWorld)
               (out emptyWorld ++ evs ++ [ConsoleError timeoutError]),
       Ret (filter keptKey (flat_map pageKeys [page1]))).
Proof.
  intros p.
  assert (H : Paged (S3 := flakyS3) p None [page1] (PageFailed timeoutError)).
  { eapply Paged_next; [reflexivity | reflexivity |].
    apply Paged_failed. reflexivity. }
  split; [exact H |]. split; [lia |].
  apply (fetchAllObjectKeys_swallows_page_failure emptyWorld H). simpl; lia.
Defined.

Lemma fetchAllObjectKeys_drops_folder_markers_witness :
  let p := params [lit "*.txt"] false false in
  Paged (S3 := goodS3) p None [page1; page2] LastPage /\
  2 < 5 /\
  exists w' allKeys,
    fetchAllObjectKeys (S3 := goodS3) p 5 emptyWorld = (w', Ret allKeys) /\
    allKeys = [lit "docs/a.txt"; lit "docs/b.txt"; lit "docs/c.log"].
Proof.
  intros p.
  assert (H : Paged (S3 := goodS3) p None [page1; page2] LastPage).
  { eapply Paged_next; [reflexivity | reflexivity |].
    apply Paged_last; reflexivity. }
  split; [exact H |]. split; [lia |].
  destruct (fetchAllObjectKeys_drops_folder_markers (fuel := 5) emptyWorld H)
    as (w' & allKeys & Hrun & Hkeys & _); [simpl; lia |].
  exists w', allKeys. split; [exact Hrun |].
  rewrite Hkeys. reflexivity.
Defined.

(** Flattening sends [docs/a.txt] to [target/a.txt]. *)
Lemma downloadFiles_destinations_witness :
  let p := params [lit "*.txt"] true true in
  exists w' allDownloads,
    downloadFiles (S3 := goodS3) p 5 emptyWorld = (w', Ret allDownloads) /\
    map dl_dest allDownloads = [lit "target/a.txt"; lit "target/b.txt"] /\
    Forall (fun d => dl_dest d = join (targetFolder p) (basename (keyOf d)))
           allDownloads.
Proof.
  intros p. eexists. eexists.
  match goal with |- ?R /\ _ => assert (Hrun : R) end.
  { vm_compute. reflexivity. }
  split; [exact Hrun |]. split; [reflexivity |].
  exact (proj2 (downloadFiles_destinations p) _ _ _ _ Hrun).
Defined.

(** [docs/a.txt] satisfies both [*.txt] and [a.*]; its destination is on
    disk and overwriting is off: the run throws at the first match and no
    download of the key is requested, let alone two. *)
Lemma downloadFiles_duplicate_match_refused :
  let p := params [lit "*.txt"; lit "a.*"] false false in
  let w := worldWith [lit "target"; lit "target/docs/a.txt"] in
  let run := downloadFiles (S3 := goodS3) p 5 w in
  minimatch (lit "*.txt") (keyToTest (sourceFolder p) (lit "docs/a.txt")) = true /\
  minimatch (lit "a.*") (keyToTest (sourceFolder p) (lit "docs/a.txt")) = true /\
  snd (listStage (S3 := goodS3) p 5 w)
  = Ret [lit "docs/a.txt"; lit "docs/b.txt"; lit "docs/c.log"] /\
  snd run = Throw (Error (loc FileExistsError
                            [lit "target/docs/a.txt"; lit "docs/a.txt"])) /\
  (forall req, ~ In (CallGetObject req) (out (fst run))).
Proof.
  vm_compute. repeat (split; [reflexivity |]).
  intros req H.
  repeat (destruct H as [H | H]; [discriminate |]).
  exact H.
Qed.

(** With overwriting on, the same two globs queue [docs/a.txt] twice. *)
Lemma downloadFiles_no_dedup_witness :
  let p := params [lit "*.txt"; lit "a.*"] false true in
  exists w' allDownloads,
    downloadFiles (S3 := goodS3) p 5 emptyWorld = (w', Ret allDownloads) /\
    map keyOf allDownloads
    = [lit "docs/a.txt"; lit "docs/b.txt"; lit "docs/a.txt"] /\
    occurrences (lit "docs/a.txt") (map keyOf allDownloads) = 1 * 2.
Proof.
  intros p. eexists. eexists.
  match goal with |- ?R /\ _ => assert (Hrun : R) end.
  { vm_compute. reflexivity. }
  split; [exact Hrun |].
  apply downloadFiles_no_dedup in Hrun
    as (w0 & allKeys & Hlist & Hkeys & Hcount).
  split; [reflexivity |].
  vm_compute in Hlist. injection Hlist as _ <-.
  exact (Hcount (lit "docs/a.txt")).
Defined.

Lemma execute_aborts_without_bucket_witness :
  let p := params [lit "*.txt"] false false in
  headBucket (S3Client := noBucketS3) (bucketName p) = Rejected notFound /\
  execute (S3 := noBucketS3) p 5 [] emptyWorld
  = (mkWorld (FSys := listDisk) [] [CallHeadBucket (lit "bkt")],
     Throw (Error (loc BucketNotExist [lit "bkt"]))).
Proof.
  intros p. split; [reflexivity |].
  apply (execute_aborts_without_bucket (S3 := noBucketS3) p 5 [] emptyWorld
           (e := notFound)).
  reflexivity.
Defined.

(** Two chunks, then the source stream breaks: the transfer fails with that
    error, whatever the sink reports afterwards. *)
Lemma downloadFile_settles_witness :
  let req := mkGetObjectRequest (lit "bkt") (lit "docs/a.txt") None None in
  let evs := [Chunk; Chunk; SourceError timeoutError; SinkClose] in
  exists w' d,
    downloadFile req (lit "target/a.txt") (worldWith [lit "target"]) = (w', Ret d) /\
    dl_state d = Pending /\
    transfer (dl_state d) evs = Failed timeoutError.
Proof.
  intros req evs.
  destruct (downloadFile_settles req (lit "target/a.txt")
              (worldWith [lit "target"]) evs)
    as (w' & d & Hrun & _ & _ & _ & Hfirst & _).
  exists w', d. split; [exact Hrun |].
  assert (Hst : dl_state d = Pending).
  { vm_compute in Hrun. injection Hrun as _ <-. reflexivity. }
  split; [exact Hst |].
  apply (Hfirst [Chunk; Chunk] (SourceError timeoutError) [SinkClose]).
  - reflexivity.
  - reflexivity.
  - repeat constructor.
  - exact Hst.
Defined.

Lemma roleArnFromName_resolves_witness :
  (exists rest, lit "arn:aws:iam::123456789012:role/deployer" = lit "arn:" ++ rest) /\
  roleArnFromName (lit "arn:aws:iam::123456789012:role/deployer") emptyWorld
  = (emptyWorld, Ret (lit "arn:aws:iam::123456789012:role/deployer")).
Proof.
  assert (H : exists rest,
             lit "arn:aws:iam::123456789012:role/deployer" = lit "arn:" ++ rest).
  { exists (lit "aws:iam::123456789012:role/deployer"). reflexivity. }
  split; [exact H |].
  exact (proj1 (roleArnFromName_resolves
                  (lit "arn:aws:iam::123456789012:role/deployer") emptyWorld) H).
Defined.

(** The end-to-end scenario: prefix [docs], glob [*.txt], nothing
    flattened, an empty target.  Two files are opened, and the task
    completes once both sinks have closed. *)
Example execute_end_to_end :
  let p := params [lit "*.txt"] false false in
  let run := execute (S3 := goodS3) p 5 [(1, SinkClose); (0, Chunk); (0, SinkClose)]
               emptyWorld in
  snd run = Ret tt /\
  filter (fun ev => match ev with CallCreateWriteStream _ => true | _ => false end)
         (out (fst run))
  = [CallCreateWriteStream (lit "target/docs/a.txt");
     CallCreateWriteStream (lit "target/docs/b.txt")] /\
  last (out (fst run)) (Debug []) = ConsoleLog (loc TaskCompleted []).
Proof. vm_compute. repeat split; reflexivity. Qed.

(** The first rejection among the transfers is the error of the run; while
    a transfer has not settled the run does not complete. *)
Example execute_first_failure_surfaces :
  let p := params [lit "*.txt"] false false in
  snd (execute (S3 := goodS3) p 5
         [(0, SinkClose); (1, SinkError notFound); (1, SourceError timeoutError)]
         emptyWorld)
  = Throw notFound /\
  snd (execute (S3 := goodS3) p 5 [(0, SinkClose); (1, Chunk)] emptyWorld)
  = Hang.
Proof. vm_compute. split; reflexivity. Qed.

(** A key as long as the prefix is tested as the empty name. *)
Example matchObjectKeys_strips_prefix :
  snd (matchObjectKeys
         [lit "docs/a.txt"; lit "docs/sub/b.txt"; lit "docs"; lit "docs/c.log"]
         (Some (lit "docs")) (lit "*.txt") emptyWorld)
  = Ret [lit "docs/a.txt"] /\
  keyToTest (Some (lit "docs")) (lit "docs/a.txt") = lit "a.txt" /\
  keyToTest (Some (lit "docs")) (lit "docs") = [] /\
  keyToTest None (lit "docs/a.txt") = lit "docs/a.txt" /\
  keyToTest (Some []) (lit "docs/a.txt") = lit "docs/a.txt".
Proof. vm_compute. repeat split; reflexivity. Qed.

(** A service that never stops handing out markers exhausts any budget. *)
Example fetchAllObjectKeys_endless_listing :
  let endless : S3Client := {|
    headBucket := fun _ => Fulfilled tt;
    listObjects := fun _ => Fulfilled (mkListObjectsOutput [] (Some (lit "m")))
  |} in
  snd (fetchAllObjectKeys (S3 := endless) (params [] false false) 7 emptyWorld)
  = Hang.
Proof. vm_compute. reflexivity. Qed.

(** * Further properties *)

Section MoreProperties.

Context {PL : PathLib} {FSys : FileSys} {TL : TaskLib} {GL : GlobLib}
        {S3 : S3Client} {IAM : IamClient} {EN : Engine}.

Notation "x <- m ;; k" := (bind m (fun x => k))
  (at level 61, m at next level, right associativity).
Notation "m ;; k" := (bind m (fun _ => k))
  (at level 61, right associativity).

(** ** Event bookkeeping *)

Lemma Emits_ret A P (a : A) : Emits P (ret a).
Proof. intros w. exists []. simpl. now rewrite app_nil_r. Qed.

Lemma Emits_throw A P e : Emits P (@throw _ A e).
Proof. intros w. exists []. simpl. now rewrite app_nil_r. Qed.

Lemma Emits_hang A P : Emits P (@hang _ A).
Proof. intros w. exists []. simpl. now rewrite app_nil_r. Qed.

Lemma Emits_emit (P : Event -> Prop) ev : P ev -> Emits P (emit ev).
Proof. intros H w. exists [ev]. simpl. split; [reflexivity | now constructor]. Qed.

Lemma Emits_weaken A (P Q : Event -> Prop) (m : M A) :
  (forall ev, P ev -> Q ev) -> Emits P m -> Emits Q m.
Proof.
  intros HPQ H w. destruct (H w) as [evs [Hout Hevs]].
  exists evs. split; [exact Hout |].
  eapply Forall_impl; [exact HPQ | exact Hevs].
Qed.

(** The continuation need only behave on the values [m] can return. *)
Lemma Emits_bind_post A B P (Q : A -> Prop) (m : M A) (k : A -> M B) :
  Emits P m -> Returns Q m -> (forall a, Q a -> Emits P (k a)) ->
  Emits P (bind m k).
Proof.
  intros Hm HQ Hk w. unfold bind.
  destruct (Hm w) as [evs1 [Hout1 Hevs1]].
  destruct (m w) as [w1 [a | e |]] eqn:Hrun; simpl in *.
  - destruct (Hk a (HQ _ _ _ Hrun) w1) as [evs2 [Hout2 Hevs2]].
    exists (evs1 ++ evs2). split.
    + now rewrite Hout2, Hout1, app_assoc.
    + now apply Forall_app.
  - now exists evs1.
  - now exists evs1.
Qed.

Lemma Emits_bind A B P (m : M A) (k : A -> M B) :
  Emits P m -> (forall a, Emits P (k a)) -> Emits P (bind m k).
Proof.
  intros Hm Hk.
  apply (Emits_bind_post (Q := fun _ => True)); [exact Hm | easy | auto].
Qed.

Lemma Emits_forEachM A B P (f : B -> A -> M B) l :
  (forall acc x, In x l -> Emits P (f acc x)) ->
  forall acc, Emits P (forEachM f l acc).
Proof.
  induction l as [| x l IH]; intros Hf acc; simpl.
  - apply Emits_ret.
  - apply Emits_bind.
    + apply Hf. now left.
    + intros acc'. apply IH. intros acc'' y Hy. apply Hf. now right.
Qed.

Lemma KeepsDisk_ret A (a : A) : KeepsDisk (ret a).
Proof. now intros w. Qed.

Lemma KeepsDisk_emit ev : KeepsDisk (emit ev).
Proof. now intros w. Qed.

Lemma KeepsDisk_bind A B (m : M A) (k : A -> M B) :
  KeepsDisk m -> (forall a, KeepsDisk (k a)) -> KeepsDisk (bind m k).
Proof.
  intros Hm Hk w. unfold bind. specialize (Hm w).
  destruct (m w) as [w1 [a | e |]]; simpl in *; try exact Hm.
  now rewrite Hk.
Qed.

Lemma KeepsDisk_forEachM A B (f : B -> A -> M B) l :
  (forall acc x, KeepsDisk (f acc x)) ->
  forall acc, KeepsDisk (forEachM f l acc).
Proof.
  intros Hf. induction l as [| x l IH]; intros acc; simpl.
  - apply KeepsDisk_ret.
  - apply KeepsDisk_bind; [apply Hf | exact IH].
Qed.

Lemma NeverThrows_bind A B (m : M A) (k : A -> M B) :
  NeverThrows m -> (forall a, NeverThrows (k a)) -> NeverThrows (bind m k).
Proof.
  intros Hm Hk w w' e. unfold bind.
  destruct (m w) as [w1 [a | e1 |]] eqn:Hrun.
  - apply Hk.
  - exfalso. exact (Hm _ _ _ Hrun).
  - discriminate.
Qed.

Lemma NeverThrows_ret A (a : A) : NeverThrows (ret a).
Proof. intros w w' e. discriminate. Qed.

Lemma NeverThrows_emit ev : NeverThrows (emit ev).
Proof. intros w w' e. discriminate. Qed.

Lemma NeverThrows_forEachM A B (f : B -> A -> M B) l :
  (forall acc x, NeverThrows (f acc x)) ->
  forall acc, NeverThrows (forEachM f l acc).
Proof.
  intros Hf. induction l as [| x l IH]; intros acc; simpl.
  - apply NeverThrows_ret.
  - apply NeverThrows_bind; [apply Hf | exact IH].
Qed.

(** ** More on the key lister *)

Lemma fetchPages_step p fuel marker allKeys w :
  fetchPages p (S fuel) marker allKeys w
  = let params := mkListObjectsRequest (bucketName p) (sourceFolder p) marker in
    let w1 := mkWorld (disk w) (out w ++ [CallListObjects params]) in
    match listObjects params with
    | Fulfilled s3Data =>
        if truthy (NextMarker s3Data)
        then fetchPages p fuel (NextMarker s3Data)
               (pushKeys allKeys (Contents s3Data)) w1
        else (w1, Ret (pushKeys allKeys (Contents s3Data)))
    | Rejected err =>
        (mkWorld (disk w) (out w1 ++ [ConsoleError err]), Ret allKeys)
    end.
Proof.
  simpl. unfold await, bind, emit, ret, consoleError, emit.
  destruct (listObjects _) as [s3Data | err]; simpl; [| reflexivity].
  now destruct (truthy (NextMarker s3Data)).
Qed.

Lemma fetchPages_Emits p fuel :
  forall marker allKeys, Emits (listerEvent p) (fetchPages p fuel marker allKeys).
Proof.
  induction fuel as [| fuel IH]; intros marker allKeys w.
  - exists []. simpl. now rewrite app_nil_r.
  - rewrite fetchPages_step. cbv zeta.
    set (params := mkListObjectsRequest (bucketName p) (sourceFolder p) marker).
    assert (Hreq : listerEvent p (CallListObjects params)) by now split.
    destruct (listObjects params) as [s3Data | err].
    + destruct (truthy (NextMarker s3Data)).
      * destruct (IH (NextMarker s3Data) (pushKeys allKeys (Contents s3Data))
                    (mkWorld (disk w) (out w ++ [CallListObjects params])))
          as [evs [Hout Hevs]].
        exists (CallListObjects params :: evs). split.
        -- rewrite Hout. simpl. now rewrite <- app_assoc.
        -- now constructor.
      * exists [CallListObjects params]. split; [reflexivity | now constructor].
    + exists [CallListObjects params; ConsoleError err]. split.
      * simpl. now rewrite <- app_assoc.
      * repeat constructor; assumption.
Qed.

Lemma fetchPages_KeepsDisk p fuel :
  forall marker allKeys, KeepsDisk (fetchPages p fuel marker allKeys).
Proof.
  induction fuel as [| fuel IH]; intros marker allKeys w.
  - reflexivity.
  - rewrite fetchPages_step. cbv zeta.
    destruct (listObjects _) as [s3Data | err]; [| reflexivity].
    destruct (truthy (NextMarker s3Data)); [| reflexivity].
    now rewrite IH.
Qed.

Lemma fetchPages_NeverThrows p fuel :
  forall marker allKeys, NeverThrows (fetchPages p fuel marker allKeys).
Proof.
  induction fuel as [| fuel IH]; intros marker allKeys w w' e.
  - discriminate.
  - rewrite fetchPages_step. cbv zeta.
    destruct (listObjects _) as [s3Data | err]; [| discriminate].
    destruct (truthy (NextMarker s3Data)); [apply IH | discriminate].
Qed.

Lemma announce_Emits (P : Event -> Prop) (b : bool) m1 m2 :
  (forall msg, P (ConsoleLog msg)) ->
  Emits P (if b then consoleLog m1 else consoleLog m2).
Proof. intros HP. destruct b; apply Emits_emit, HP. Qed.

Lemma fetchAllObjectKeys_Emits p fuel :
  Emits (listerEvent p) (fetchAllObjectKeys p fuel).
Proof.
  unfold fetchAllObjectKeys. apply Emits_bind.
  - now apply announce_Emits.
  - intros _. apply fetchPages_Emits.
Qed.

Lemma fetchAllObjectKeys_KeepsDisk p fuel : KeepsDisk (fetchAllObjectKeys p fuel).
Proof.
  unfold fetchAllObjectKeys. apply KeepsDisk_bind.
  - destruct (truthy (sourceFolder p)); apply KeepsDisk_emit.
  - intros _. apply fetchPages_KeepsDisk.
Qed.

Lemma fetchAllObjectKeys_NeverThrows p fuel : NeverThrows (fetchAllObjectKeys p fuel).
Proof.
  unfold fetchAllObjectKeys. apply NeverThrows_bind.
  - destruct (truthy (sourceFolder p)); apply NeverThrows_emit.
  - intros _. apply fetchPages_NeverThrows.
Qed.

(** X1: whatever the service answers and however the listing ends, the key
    lister throws nothing, leaves the disk alone, and does nothing but
    write to the console and request pages of the configured bucket under
    the configured prefix. *)
Theorem fetchAllObjectKeys_only_lists p fuel w :
  (forall e, snd (fetchAllObjectKeys p fuel w) <> Throw e) /\
  disk (fst (fetchAllObjectKeys p fuel w)) = disk w /\
  exists evs,
    out (fst (fetchAllObjectKeys p fuel w)) = out w ++ evs /\
    Forall (listerEvent p) evs.
Proof.
  split; [| split].
  - intros e He.
    destruct (fetchAllObjectKeys p fuel w) as [w' o] eqn:Hrun. simpl in He.
    subst o. eapply fetchAllObjectKeys_NeverThrows, Hrun.
  - apply fetchAllObjectKeys_KeepsDisk.
  - apply fetchAllObjectKeys_Emits.
Qed.

Lemma pageRequests_app evs1 evs2 :
  pageRequests (evs1 ++ evs2) = pageRequests evs1 ++ pageRequests evs2.
Proof.
  induction evs1 as [| ev evs1 IH]; simpl; [reflexivity |].
  destruct ev; simpl; now rewrite ?IH.
Qed.

Lemma fetchPages_requests p marker pgs stop :
  Paged p marker pgs stop ->
  forall fuel allKeys w,
    List.length pgs < fuel ->
    exists evs,
      out (fst (fetchPages p fuel marker allKeys w)) = out w ++ evs /\
      pageRequests evs
      = map (mkListObjectsRequest (bucketName p) (sourceFolder p))
          (firstn (List.length pgs
                   + match stop with LastPage => 0 | PageFailed _ => 1 end)
                  (marker :: map NextMarker pgs)).
Proof.
  induction 1 as [marker e Hreq | marker pg Hreq Hnext
                 | marker pg pgs stop Hreq Hnext Hrest IH];
    intros fuel allKeys w Hfuel;
    (destruct fuel as [| fuel]; [simpl in Hfuel; lia |]);
    rewrite fetchPages_step; cbv zeta; rewrite Hreq.
  - eexists [_; _]. split.
    + simpl. now rewrite <- app_assoc.
    + reflexivity.
  - rewrite Hnext. eexists [_]. split; reflexivity.
  - rewrite Hnext. simpl in Hfuel.
    destruct (IH fuel (pushKeys allKeys (Contents pg))
                (mkWorld (disk w)
                   (out w ++ [CallListObjects
                      (mkListObjectsRequest (bucketName p) (sourceFolder p) marker)])))
      as [evs [Hout Hreqs]]; [lia |].
    eexists (_ :: evs). split.
    + rewrite Hout. simpl. now rewrite <- app_assoc.
    + simpl. now rewrite Hreqs.
Qed.

(** X2: the lister asks for one page at a time and follows the markers:
    the first request has no marker, each further one carries the marker
    the page before it returned, the marker of the last page is not
    requested, and after a failed request no other request is made. *)
Theorem fetchAllObjectKeys_requests p pgs stop fuel w :
  Paged p None pgs stop ->
  List.length pgs < fuel ->
  exists evs,
    out (fst (fetchAllObjectKeys p fuel w)) = out w ++ evs /\
    pageRequests evs
    = map (mkListObjectsRequest (bucketName p) (sourceFolder p))
        (firstn (List.length pgs
                 + match stop with LastPage => 0 | PageFailed _ => 1 end)
                (None :: map NextMarker pgs)).
Proof.
  intros Hpaged Hfuel. unfold fetchAllObjectKeys.
  set (announce := if truthy (sourceFolder p)
                   then loc ListingKeysFromPrefix [str (sourceFolder p); bucketName p]
                   else loc ListingKeysFromRoot [bucketName p]).
  assert (Hlog :
    (if truthy (sourceFolder p)
     then consoleLog (loc ListingKeysFromPrefix [str (sourceFolder p); bucketName p])
     else consoleLog (loc ListingKeysFromRoot [bucketName p])) w
    = (mkWorld (disk w) (out w ++ [ConsoleLog announce]), Ret tt)).
  { unfold announce. now destruct (truthy (sourceFolder p)). }
  erewrite bind_ret_run by exact Hlog.
  destruct (fetchPages_requests Hpaged (fuel := fuel) []
              (mkWorld (disk w) (out w ++ [ConsoleLog announce])) Hfuel)
    as [evs [Hout Hreqs]].
  exists (ConsoleLog announce :: evs). split.
  - rewrite Hout. simpl. now rewrite <- app_assoc.
  - exact Hreqs.
Qed.

(** ** More on the glob matcher *)

Lemma matchObjectKeys_exact allKeys sourcePrefix glob w :
  matchObjectKeys allKeys sourcePrefix glob w
  = (mkWorld (disk w)
       (out w
        ++ ConsoleLog (if truthy sourcePrefix
                       then loc GlobbingFromPrefix [str sourcePrefix; glob]
                       else loc GlobbingFromRoot [glob])
        :: map (fun key => Debug (loc MatchedKey [key]))
             (filter (fun key => minimatch glob (keyToTest sourcePrefix key))
                     allKeys)),
     Ret (filter (fun key => minimatch glob (keyToTest sourcePrefix key)) allKeys)).
Proof.
  unfold matchObjectKeys, keyToTest.
  destruct (truthy sourcePrefix).
  - erewrite bind_ret_run by reflexivity.
    rewrite matchLoop_run. simpl. now rewrite <- app_assoc.
  - erewrite bind_ret_run by reflexivity.
    rewrite matchLoop_run. simpl. now rewrite <- app_assoc.
Qed.

(** X4: the matcher always returns; it leaves the disk alone and logs one
    line for the glob, then one debug line for each key it returns, in the
    order it returns them. *)
Theorem matchObjectKeys_log allKeys sourcePrefix glob w :
  exists matchedKeys,
    matchObjectKeys allKeys sourcePrefix glob w
    = (mkWorld (disk w)
         (out w
          ++ ConsoleLog (if truthy sourcePrefix
                         then loc GlobbingFromPrefix [str sourcePrefix; glob]
                         else loc GlobbingFromRoot [glob])
          :: map (fun key => Debug (loc MatchedKey [key])) matchedKeys),
       Ret matchedKeys).
Proof.
  eexists. apply matchObjectKeys_exact.
Qed.

Lemma filter_idem A (f : A -> bool) l : filter f (filter f l) = filter f l.
Proof.
  induction l as [| x l IH]; simpl; [reflexivity |].
  destruct (f x) eqn:Hx; simpl; [rewrite Hx |]; now rewrite ?IH.
Qed.

(** X5: matching is idempotent: given its own result as the key list, with
    the same prefix and glob, the matcher returns that list again. *)
Theorem matchObjectKeys_idempotent allKeys sourcePrefix glob w w1 matchedKeys w2 :
  matchObjectKeys allKeys sourcePrefix glob w = (w1, Ret matchedKeys) ->
  snd (matchObjectKeys matchedKeys sourcePrefix glob w2) = Ret matchedKeys.
Proof.
  rewrite !matchObjectKeys_exact. intros [= _ <-]. simpl.
  now rewrite filter_idem.
Qed.

(** X6: each key is judged on its own: the matches of a concatenated key
    list are the matches of its first part followed by those of its
    second, so a key's fate does not depend on the keys around it. *)
Theorem matchObjectKeys_app keys1 keys2 sourcePrefix glob w :
  exists m1 m2,
    snd (matchObjectKeys keys1 sourcePrefix glob w) = Ret m1 /\
    snd (matchObjectKeys keys2 sourcePrefix glob w) = Ret m2 /\
    snd (matchObjectKeys (keys1 ++ keys2) sourcePrefix glob w) = Ret (m1 ++ m2).
Proof.
  eexists. eexists. rewrite !matchObjectKeys_exact. simpl.
  split; [reflexivity |]. split; [reflexivity |].
  now rewrite filter_app.
Qed.

(** X7: a key that is not longer than the configured prefix plus its
    separator is tested as the empty name: it is returned exactly when the
    glob accepts the empty string. *)
Theorem matchObjectKeys_short_key allKeys sourcePrefix glob w key :
  truthy sourcePrefix = true ->
  List.length key <= List.length (str sourcePrefix) + 1 ->
  exists w' matchedKeys,
    matchObjectKeys allKeys sourcePrefix glob w = (w', Ret matchedKeys) /\
    (In key matchedKeys <-> In key allKeys /\ minimatch glob [] = true).
Proof.
  intros Hsp Hlen. eexists. eexists.
  split; [apply matchObjectKeys_exact |].
  rewrite filter_In. unfold keyToTest, substring. rewrite Hsp.
  rewrite skipn_all2 by exact Hlen. reflexivity.
Qed.

(** X8: the matcher never compares a key with the prefix; only the length
    of the prefix counts.  Two configured prefixes of the same length give
    the same matches on every key list. *)
Theorem matchObjectKeys_prefix_length_only allKeys prefix1 prefix2 glob w :
  truthy prefix1 = true ->
  truthy prefix2 = true ->
  List.length (str prefix1) = List.length (str prefix2) ->
  snd (matchObjectKeys allKeys prefix1 glob w)
  = snd (matchObjectKeys allKeys prefix2 glob w).
Proof.
  intros H1 H2 Hlen. rewrite !matchObjectKeys_exact. simpl.
  f_equal. apply filter_ext. intros key.
  unfold keyToTest. now rewrite H1, H2, Hlen.
Qed.

(** ** More on queueing *)

Lemma bind_inv_throw A B (m : M A) (k : A -> M B) w w' e :
  bind m k w = (w', Throw e) ->
  m w = (w', Throw e) \/
  exists w1 a, m w = (w1, Ret a) /\ k a w1 = (w', Throw e).
Proof.
  unfold bind. destruct (m w) as [w1 [a | e1 |]]; intros H.
  - right. now exists w1, a.
  - left. now injection H as -> ->.
  - discriminate.
Qed.

Lemma forEachM_inv_throw A B (f : B -> A -> M B) l :
  forall acc w w' e,
    forEachM f l acc w = (w', Throw e) ->
    exists x acc1 w1, In x l /\ f acc1 x w1 = (w', Throw e).
Proof.
  induction l as [| x l IH]; intros acc w w' e H; simpl in H.
  - discriminate.
  - apply bind_inv_throw in H as [H | (w1 & acc1 & _ & H)].
    + exists x, acc, w. split; [now left | exact H].
    + apply IH in H as (y & acc2 & w2 & Hy & H).
      exists y, acc2, w2. split; [now right | exact H].
Qed.

(** The three ways the executor of [downloadFile] can go. *)
Lemma downloadFile_cases s3Params dest w :
  (existsSync (disk w) (dirname dest) = true /\
   downloadFile s3Params dest w
   = (mkWorld (createWriteStream (disk w) dest)
              (out w ++ [CallCreateWriteStream dest; CallGetObject s3Params]),
      Ret (mkDownload s3Params dest Pending))) \/
  (existsSync (disk w) (dirname dest) = false /\
   exists d e,
     mkdirP (disk w) (dirname dest) = (d, Some e) /\
     downloadFile s3Params dest w
     = (mkWorld d (out w ++ [CallMkdirP (dirname dest)]),
        Ret (mkDownload s3Params dest (Failed e)))) \/
  (existsSync (disk w) (dirname dest) = false /\
   exists d,
     mkdirP (disk w) (dirname dest) = (d, None) /\
     downloadFile s3Params dest w
     = (mkWorld (createWriteStream d dest)
                (out w ++ [CallMkdirP (dirname dest);
                           CallCreateWriteStream dest; CallGetObject s3Params]),
        Ret (mkDownload s3Params dest Pending))).
Proof.
  unfold downloadFile, newPromise, bind, fsExistsSync, tlMkdirP,
    fsCreateWriteStream, emit, ret. simpl.
  destruct (existsSync (disk w) (dirname dest)); simpl.
  - left. split; [reflexivity |]. now rewrite <- app_assoc.
  - right. destruct (mkdirP (disk w) (dirname dest)) as [d [e |]]; simpl.
    + left. split; [reflexivity |]. now exists d, e.
    + right. split; [reflexivity |]. exists d. split; [reflexivity |].
      now rewrite <- !app_assoc.
Qed.


Lemma downloadFile_Emits (P : Event -> Prop) s3Params dest :
  P (CallMkdirP (dirname dest)) ->
  P (CallCreateWriteStream dest) ->
  P (CallGetObject s3Params) ->
  Emits P (downloadFile s3Params dest).
Proof.
  intros H1 H2 H3 w.
  destruct (downloadFile_cases s3Params dest w)
    as [[_ Hrun] | [[_ (d & e & _ & Hrun)] | [_ (d & _ & Hrun)]]];
    rewrite Hrun; simpl; eexists; (split; [reflexivity |]);
    repeat constructor; assumption.
Qed.

Lemma downloadFile_NeverThrows s3Params dest :
  NeverThrows (downloadFile s3Params dest).
Proof.
  intros w w' e.
  destruct (downloadFile_cases s3Params dest w)
    as [[_ Hrun] | [[_ (d & e0 & _ & Hrun)] | [_ (d & _ & Hrun)]]];
    rewrite Hrun; discriminate.
Qed.

Lemma queueMatch_Emits p allDownloads key :
  wanted p key -> Emits (taskEvent p) (queueMatch p allDownloads key).
Proof.
  intros Hkey. unfold queueMatch.
  apply Emits_bind; [intros w; exists []; simpl; now rewrite app_nil_r |].
  intros ex. apply Emits_bind.
  - destruct ex; [destruct (overwrite p) |].
    + now apply Emits_emit.
    + apply Emits_throw.
    + apply Emits_ret.
  - intros _. apply Emits_bind; [now apply Emits_emit |].
    intros _. apply Emits_bind; [| intros d; apply Emits_ret].
    apply downloadFile_Emits; simpl.
    + right. now exists key.
    + now exists key.
    + now exists key.
Qed.

Lemma queueMatch_inv_throw p allDownloads key w w' e :
  queueMatch p allDownloads key w = (w', Throw e) ->
  w' = w /\
  existsSync (disk w) (resolveDest p key) = true /\
  overwrite p = false /\
  e = Error (loc FileExistsError [resolveDest p key; key]).
Proof.
  intros H.
  destruct (existsSync (disk w) (resolveDest p key)) eqn:Hex;
    [destruct (overwrite p) eqn:Hov |].
  - destruct (queueMatch_overwrites p allDownloads key w Hex Hov)
      as (w1 & st & evs & Hrun & _).
    rewrite Hrun in H. discriminate.
  - rewrite (queueMatch_refuses p allDownloads key w Hex Hov) in H.
    injection H as <- <-. auto.
  - exfalso. unfold queueMatch in H.
    erewrite bind_ret_run in H by reflexivity. rewrite Hex in H.
    erewrite bind_ret_run in H by reflexivity.
    erewrite bind_ret_run in H by reflexivity.
    apply bind_inv_throw in H as [H | (w1 & d & _ & H)].
    + eapply downloadFile_NeverThrows, H.
    + discriminate.
Qed.

Lemma matchObjectKeys_Returns allKeys sourcePrefix glob :
  Returns
    (fun matchedKeys =>
       forall key, In key matchedKeys ->
                   In key allKeys /\
                   minimatch glob (keyToTest sourcePrefix key) = true)
    (matchObjectKeys allKeys sourcePrefix glob).
Proof.
  intros w w' matched H. rewrite matchObjectKeys_exact in H.
  injection H as _ <-. intros key Hkey. now apply filter_In in Hkey.
Qed.

Lemma matchObjectKeys_Emits (P : Event -> Prop) allKeys sourcePrefix glob :
  (forall msg, P (ConsoleLog msg)) ->
  (forall msg, P (Debug msg)) ->
  Emits P (matchObjectKeys allKeys sourcePrefix glob).
Proof.
  intros HL HD w. rewrite matchObjectKeys_exact. simpl.
  eexists. split; [reflexivity |].
  constructor; [apply HL |].
  apply Forall_forall. intros ev Hev.
  apply in_map_iff in Hev as [key [<- _]]. apply HD.
Qed.

Lemma queueGlob_Emits p allKeys allDownloads glob :
  (forall key, In key allKeys -> keptKey key = true) ->
  In glob (globExpressions p) ->
  Emits (taskEvent p) (queueGlob p allKeys allDownloads glob).
Proof.
  intros Hkept Hglob. unfold queueGlob.
  eapply Emits_bind_post.
  - now apply matchObjectKeys_Emits.
  - apply matchObjectKeys_Returns.
  - intros matched Hmatched. apply Emits_forEachM.
    intros acc key Hkey. apply queueMatch_Emits.
    destruct (Hmatched key Hkey) as [Hin Hmm].
    split; [now apply Hkept |]. now exists glob.
Qed.

Lemma queueStage_Emits p allKeys :
  (forall key, In key allKeys -> keptKey key = true) ->
  Emits (taskEvent p) (queueStage p allKeys).
Proof.
  intros Hkept. unfold queueStage. apply Emits_forEachM.
  intros acc glob Hglob. now apply queueGlob_Emits.
Qed.

Lemma fetchPages_kept p fuel :
  forall marker allKeys w w' keys,
    fetchPages p fuel marker allKeys w = (w', Ret keys) ->
    forall key, In key keys -> In key allKeys \/ keptKey key = true.
Proof.
  induction fuel as [| fuel IH]; intros marker allKeys w w' keys H key Hkey.
  - discriminate.
  - rewrite fetchPages_step in H. cbv zeta in H.
    assert (Hpush : forall contents k,
              In k (pushKeys allKeys contents) ->
              In k allKeys \/ keptKey k = true).
    { intros contents k. rewrite pushKeys_filter, in_app_iff, filter_In. tauto. }
    destruct (listObjects _) as [s3Data | err].
    + destruct (truthy (NextMarker s3Data)).
      * destruct (IH _ _ _ _ _ H key Hkey) as [Hin | Hk]; [| now right].
        now apply (Hpush (Contents s3Data)).
      * injection H as _ <-. now apply (Hpush (Contents s3Data)).
    + injection H as _ <-. now left.
Qed.

Lemma listStage_Returns p fuel :
  Returns (fun allKeys => forall key, In key allKeys -> keptKey key = true)
          (listStage p fuel).
Proof.
  intros w w' allKeys H key Hkey. unfold listStage, fetchAllObjectKeys in H.
  apply bind_inv_ret in H as (w1 & [] & _ & H).
  apply bind_inv_ret in H as (w2 & ex & _ & H).
  apply bind_inv_ret in H as (w3 & [] & _ & H).
  apply bind_inv_ret in H as (w4 & [] & _ & H).
  pose proof (@fetchPages_kept p fuel None [] w4 w' allKeys H key Hkey) as Hk.
  destruct Hk as [[] | Hk]. exact Hk.
Qed.

Lemma tlMkdirP_Emits (P : Event -> Prop) dir :
  P (CallMkdirP dir) -> Emits P (tlMkdirP dir).
Proof.
  intros HP w. unfold tlMkdirP. simpl.
  destruct (mkdirP (disk w) dir) as [d [e |]]; simpl;
    (exists [CallMkdirP dir]; split; [reflexivity | now constructor]).
Qed.

Lemma listerEvent_taskEvent p ev : listerEvent p ev -> taskEvent p ev.
Proof. destruct ev; simpl; tauto. Qed.

Lemma listStage_Emits p fuel : Emits (taskEvent p) (listStage p fuel).
Proof.
  unfold listStage. apply Emits_bind; [now apply Emits_emit |].
  intros _. apply Emits_bind;
    [intros w; exists []; simpl; now rewrite app_nil_r |].
  intros ex. apply Emits_bind.
  - destruct (negb ex); [| apply Emits_ret].
    apply tlMkdirP_Emits. now left.
  - intros _. eapply Emits_weaken; [apply listerEvent_taskEvent |].
    apply fetchAllObjectKeys_Emits.
Qed.

Lemma downloadFiles_Emits p fuel : Emits (taskEvent p) (downloadFiles p fuel).
Proof.
  unfold downloadFiles. eapply Emits_bind_post.
  - apply listStage_Emits.
  - apply listStage_Returns.
  - intros allKeys Hkept. now apply queueStage_Emits.
Qed.

(** ** Transfers and [Promise.all] *)


Lemma promiseAll_eq ps sched :
  promiseAll ps sched
  = match firstFailed ps with
    | Some e => Failed e
    | None =>
        if forallb isResolved ps then Resolved
        else match sched with
             | [] => Pending
             | (i, ev) :: sched' => promiseAll (deliver i ev ps) sched'
             end
    end.
Proof. destruct sched as [| [i ev] sched]; reflexivity. Qed.

Lemma firstFailed_In ps e : firstFailed ps = Some e -> In (Failed e) ps.
Proof.
  induction ps as [| st ps IH]; simpl; [discriminate |].
  destruct st; auto. intros [= ->]. now left.
Qed.

Lemma firstFailed_None ps :
  firstFailed ps = None <-> forall e, ~ In (Failed e) ps.
Proof.
  induction ps as [| st ps IH]; simpl.
  - split; [intros _ e [] | reflexivity].
  - destruct st.
    + rewrite IH. split.
      * intros H e [He | He]; [discriminate | exact (H e He)].
      * intros H e He. apply (H e). now right.
    + rewrite IH. split.
      * intros H e [He | He]; [discriminate | exact (H e He)].
      * intros H e He. apply (H e). now right.
    + split; [discriminate |]. intros H. exfalso. apply (H e). now left.
Qed.

Lemma nth_error_deliver_same ps i ev st :
  nth_error ps i = Some st ->
  nth_error (deliver i ev ps) i = Some (settle st ev).
Proof.
  revert i. induction ps as [| st0 ps IH]; intros [| i]; simpl; try discriminate.
  - now intros [= ->].
  - apply IH.
Qed.

Lemma nth_error_deliver_other ps i j ev :
  i <> j -> nth_error (deliver j ev ps) i = nth_error ps i.
Proof.
  revert i j. induction ps as [| st0 ps IH]; intros i j Hij; simpl.
  - now destruct j.
  - destruct j as [| j]; destruct i as [| i]; simpl; try reflexivity.
    + congruence.
    + apply IH. congruence.
Qed.

Lemma In_deliver st i ev ps :
  In st (deliver i ev ps) ->
  In st ps \/ exists st0, In st0 ps /\ st = settle st0 ev.
Proof.
  revert i. induction ps as [| st0 ps IH]; intros i H; simpl in *.
  - destruct i; contradiction.
  - destruct i as [| i]; simpl in H.
    + destruct H as [<- | H]; [right; exists st0; auto | auto].
    + destruct H as [<- | H]; [auto |].
      destruct (IH _ H) as [Hin | (st1 & Hin & ->)]; [auto |].
      right. exists st1. auto.
Qed.

Lemma settle_Failed st ev e :
  settle st ev = Failed e -> st = Failed e \/ reportsError ev = Some e.
Proof.
  destruct st; simpl; [| discriminate | auto].
  destruct ev; simpl; try discriminate; intros [= ->]; auto.
Qed.

Lemma promiseAll_Failed_origin ps sched e :
  promiseAll ps sched = Failed e ->
  In (Failed e) ps \/
  exists i ev, In (i, ev) sched /\ reportsError ev = Some e.
Proof.
  revert ps. induction sched as [| [i ev] sched IH]; intros ps;
    rewrite promiseAll_eq.
  - destruct (firstFailed ps) eqn:Hff.
    + intros [= ->]. left. now apply firstFailed_In.
    + destruct (forallb isResolved ps); discriminate.
  - destruct (firstFailed ps) eqn:Hff.
    + intros [= ->]. left. now apply firstFailed_In.
    + destruct (forallb isResolved ps); [discriminate |].
      intros H. destruct (IH _ H) as [Hin | (j & ev' & Hin & Hev)].
      * destruct (In_deliver _ _ _ _ Hin) as [Hps | (st0 & Hst0 & Hset)];
          [now left |].
        symmetry in Hset.
        destruct (settle_Failed _ _ Hset) as [-> | Hev]; [now left |].
        right. exists i, ev. split; [now left | exact Hev].
      * right. exists j, ev'. split; [now right | exact Hev].
Qed.

Lemma forallb_isResolved_nth ps i :
  forallb isResolved ps = true -> nth_error ps i <> Some Pending.
Proof.
  intros H Hnth. apply nth_error_In in Hnth.
  rewrite forallb_forall in H. now apply H in Hnth.
Qed.

Lemma promiseAll_Resolved_closed ps sched :
  promiseAll ps sched = Resolved ->
  forall i, nth_error ps i = Some Pending -> In (i, SinkClose) sched.
Proof.
  revert ps. induction sched as [| [j ev] sched IH]; intros ps;
    rewrite promiseAll_eq.
  - destruct (firstFailed ps); [discriminate |].
    destruct (forallb isResolved ps) eqn:Hall; [| discriminate].
    intros _ i Hi. now apply forallb_isResolved_nth with (i := i) in Hall.
  - destruct (firstFailed ps); [discriminate |].
    destruct (forallb isResolved ps) eqn:Hall.
    + intros _ i Hi. now apply forallb_isResolved_nth with (i := i) in Hall.
    + intros H i Hi. destruct (Nat.eq_dec i j) as [-> | Hij].
      * pose proof (nth_error_deliver_same _ _ ev Hi) as Hd. simpl in Hd.
        destruct ev.
        -- right. now apply (IH _ H).
        -- exfalso. rewrite promiseAll_eq in H.
           destruct (firstFailed (deliver j (SourceError e) ps)) eqn:Hff;
             [discriminate |].
           rewrite firstFailed_None in Hff.
           apply (Hff e). eapply nth_error_In, Hd.
        -- exfalso. rewrite promiseAll_eq in H.
           destruct (firstFailed (deliver j (SinkError e) ps)) eqn:Hff;
             [discriminate |].
           rewrite firstFailed_None in Hff.
           apply (Hff e). eapply nth_error_In, Hd.
        -- now left.
      * right. apply (IH _ H).
        now rewrite nth_error_deliver_other.
Qed.

Lemma promiseAll_closed_Resolved ps sched :
  firstFailed ps = None ->
  (forall i ev, In (i, ev) sched -> reportsError ev = None) ->
  (forall i, nth_error ps i = Some Pending -> In (i, SinkClose) sched) ->
  promiseAll ps sched = Resolved.
Proof.
  revert ps. induction sched as [| [j ev] sched IH]; intros ps Hff Herr Hclose;
    rewrite promiseAll_eq, Hff.
  - destruct (forallb isResolved ps) eqn:Hall; [reflexivity |].
    exfalso. apply Bool.not_true_iff_false in Hall. apply Hall.
    apply forallb_forall. intros st Hst.
    apply In_nth_error in Hst as [i Hi].
    destruct st; [| reflexivity |].
    + destruct (Hclose i Hi).
    + rewrite firstFailed_None in Hff. destruct (Hff e).
      eapply nth_error_In, Hi.
  - destruct (forallb isResolved ps); [reflexivity |].
    assert (Hev : reportsError ev = None) by (apply (Herr j); now left).
    apply IH.
    + apply firstFailed_None. intros e He.
      destruct (In_deliver _ _ _ _ He) as [Hps | (st0 & Hst0 & Hset)].
      * rewrite firstFailed_None in Hff. exact (Hff e Hps).
      * symmetry in Hset.
        destruct (settle_Failed _ _ Hset) as [-> | He']; [| congruence].
        rewrite firstFailed_None in Hff. exact (Hff e Hst0).
    + intros i ev' Hin. apply (Herr i). now right.
    + intros i Hi. destruct (Nat.eq_dec i j) as [-> | Hij].
      * destruct (nth_error ps j) as [st |] eqn:Hj.
        -- rewrite (nth_error_deliver_same _ _ ev Hj) in Hi.
           injection Hi as Hi.
           assert (st = Pending /\ ev = Chunk) as [-> ->].
           { destruct st; simpl in Hi; try discriminate.
             destruct ev; simpl in Hi; try discriminate. auto. }
           destruct (Hclose j Hj) as [Heq | Hin]; [discriminate | exact Hin].
        -- exfalso. apply nth_error_None in Hj.
           assert (Hlen : List.length (deliver j ev ps) = List.length ps).
           { clear. revert j. induction ps as [| st ps IHps]; intros [| j];
               simpl; auto. }
           assert (nth_error (deliver j ev ps) j = None) as Hnone
             by (apply nth_error_None; lia).
           congruence.
      * rewrite nth_error_deliver_other in Hi by exact Hij.
        destruct (Hclose i Hi) as [Heq | Hin]; [congruence | exact Hin].
Qed.

(** X13: when no download was rejected at birth and no stream reports an
    error, [Promise.all] over the downloads is fulfilled exactly when the
    sink of every pending download closes, in whatever order the closes
    and the data arrive. *)
Theorem promiseAll_resolves_iff ps sched :
  firstFailed ps = None ->
  (forall i ev, In (i, ev) sched -> reportsError ev = None) ->
  promiseAll ps sched = Resolved <->
  (forall i, nth_error ps i = Some Pending -> In (i, SinkClose) sched).
Proof.
  intros Hff Herr. split.
  - apply promiseAll_Resolved_closed.
  - now apply promiseAll_closed_Resolved.
Qed.

(** ** The whole run *)

(** X14: [execute] checks the bucket first and only once, and calls no
    other service than S3.  Whatever the outcome, every later event is
    console output, a page request for the configured bucket and prefix,
    the creation of the target folder or of the parent directory of a
    wanted key's destination, the opening of such a destination, or the
    request of a wanted key from the configured bucket; a wanted key is
    one that is no folder marker and that a configured glob accepts. *)
Theorem execute_events p fuel sched w :
  exists evs,
    out (fst (execute p fuel sched w))
    = out w ++ CallHeadBucket (bucketName p) :: evs /\
    Forall (taskEvent p) evs.
Proof.
  unfold execute, testBucketExists, await.
  unfold bind at 1. unfold bind at 1. unfold bind at 1. simpl.
  set (w1 := mkWorld (disk w) (out w ++ [CallHeadBucket (bucketName p)])).
  destruct (headBucket (bucketName p)) as [[] | err]; simpl.
  - unfold bind.
    destruct (downloadFiles_Emits p fuel w1) as [evs [Hout Hevs]].
    destruct (downloadFiles p fuel w1) as [w2 [ds | e |]]; simpl in *.
    + destruct (promiseAll (map dl_state ds) sched); simpl.
      * exists evs. rewrite Hout. unfold w1. simpl.
        now rewrite <- app_assoc.
      * exists (evs ++ [ConsoleLog (loc TaskCompleted [])]). split.
        -- rewrite Hout. unfold w1. simpl. now rewrite <- !app_assoc.
        -- apply Forall_app. split; [exact Hevs | now constructor].
      * exists evs. rewrite Hout. unfold w1. simpl.
        now rewrite <- app_assoc.
    + exists evs. rewrite Hout. unfold w1. simpl. now rewrite <- app_assoc.
    + exists evs. rewrite Hout. unfold w1. simpl. now rewrite <- app_assoc.
  - exists []. split; [reflexivity | constructor].
Qed.

Lemma listStage_inv_throw p fuel w w' e :
  listStage p fuel w = (w', Throw e) ->
  existsSync (disk w) (targetFolder p) = false /\
  snd (mkdirP (disk w) (targetFolder p)) = Some e.
Proof.
  unfold listStage. intros H.
  apply bind_inv_throw in H as [H | (w1 & [] & H1 & H)]; [discriminate |].
  injection H1 as <-.
  apply bind_inv_throw in H as [H | (w2 & ex & H2 & H)]; [discriminate |].
  injection H2 as <- <-. simpl in H.
  apply bind_inv_throw in H as [H | (w3 & [] & _ & H)].
  - destruct (existsSync (disk w) (targetFolder p)); simpl in H;
      [discriminate |].
    split; [reflexivity |].
    unfold tlMkdirP in H. simpl in H.
    destruct (mkdirP (disk w) (targetFolder p)) as [d [e0 |]];
      [now injection H as _ -> | discriminate].
  - exfalso. eapply fetchAllObjectKeys_NeverThrows, H.
Qed.

Lemma queueStage_inv_throw p allKeys w w' e :
  (forall key, In key allKeys -> keptKey key = true) ->
  queueStage p allKeys w = (w', Throw e) ->
  overwrite p = false /\
  exists key,
    wanted p key /\
    existsSync (disk w') (resolveDest p key) = true /\
    e = Error (loc FileExistsError [resolveDest p key; key]).
Proof.
  intros Hkept H. unfold queueStage in H.
  apply forEachM_inv_throw in H as (glob & acc1 & w1 & Hglob & H).
  unfold queueGlob in H.
  apply bind_inv_throw in H as [H | (w2 & matched & Hmatch & H)].
  - rewrite matchObjectKeys_exact in H. discriminate.
  - apply forEachM_inv_throw in H as (key & acc2 & w3 & Hkey & H).
    apply queueMatch_inv_throw in H as (-> & Hex & Hov & ->).
    split; [exact Hov |]. exists key. split; [| now split].
    destruct (@matchObjectKeys_Returns allKeys (sourceFolder p) glob
                _ _ _ Hmatch key Hkey) as [Hin Hmm].
    split; [now apply Hkept | now exists glob].
Qed.

(** X15: [downloadFiles] can throw two things only.  Either the target
    folder was missing and [mkdirP] failed on it, or overwriting is off
    and the destination of a wanted key was found on disk; then the error
    is the [FileExistsError] message for that destination and key, and the
    destination is on disk in the world the run stops in. *)
Theorem downloadFiles_throws_only p fuel w w' e :
  downloadFiles p fuel w = (w', Throw e) ->
  (existsSync (disk w) (targetFolder p) = false /\
   snd (mkdirP (disk w) (targetFolder p)) = Some e) \/
  (overwrite p = false /\
   exists key,
     wanted p key /\
     existsSync (disk w') (resolveDest p key) = true /\
     e = Error (loc FileExistsError [resolveDest p key; key])).
Proof.
  unfold downloadFiles. intros H.
  apply bind_inv_throw in H as [H | (w0 & allKeys & Hlist & H)].
  - left. eapply listStage_inv_throw, H.
  - right. eapply queueStage_inv_throw; [| exact H].
    exact (@listStage_Returns p fuel _ _ _ Hlist).
Qed.

Lemma forEachM_invariant A B (I : B -> Prop) (f : B -> A -> M B) l :
  (forall acc x w w' acc', I acc -> f acc x w = (w', Ret acc') -> I acc') ->
  forall acc w w' r,
    I acc -> forEachM f l acc w = (w', Ret r) -> I r.
Proof.
  intros Hf. induction l as [| x l IH]; intros acc w w' r Hacc H; simpl in H.
  - now injection H as _ <-.
  - apply bind_inv_ret in H as (w1 & acc1 & Hstep & H).
    eapply IH; [| exact H]. eapply Hf; eassumption.
Qed.

Lemma queueMatch_bornWell p allDownloads key w w' ds :
  Forall bornWell allDownloads ->
  queueMatch p allDownloads key w = (w', Ret ds) ->
  Forall bornWell ds.
Proof.
  unfold queueMatch. intros Hacc H.
  apply bind_inv_ret in H as (w1 & ex & _ & H).
  apply bind_inv_ret in H as (w2 & [] & _ & H).
  apply bind_inv_ret in H as (w3 & [] & _ & H).
  apply bind_inv_ret in H as (w4 & d & Hd & H).
  injection H as _ <-. apply Forall_app. split; [exact Hacc |].
  constructor; [| constructor].
  destruct (downloadFile_cases (getObjectParams p key) (resolveDest p key) w3)
    as [[_ Hrun] | [[_ (dsk & e & Hmk & Hrun)] | [_ (dsk & _ & Hrun)]]];
    rewrite Hrun in Hd; injection Hd as _ <-.
  - now left.
  - right. exists e, (disk w3), (dirname (resolveDest p key)).
    now rewrite Hmk.
  - now left.
Qed.

Lemma downloadFiles_bornWell p fuel w w' ds :
  downloadFiles p fuel w = (w', Ret ds) -> Forall bornWell ds.
Proof.
  unfold downloadFiles, queueStage. intros H.
  apply bind_inv_ret in H as (w0 & allKeys & _ & H).
  eapply (@forEachM_invariant _ _ (Forall bornWell)); [| constructor | exact H].
  intros acc glob w1 w2 acc' Hacc Hstep. unfold queueGlob in Hstep.
  apply bind_inv_ret in Hstep as (w3 & matched & _ & Hstep).
  eapply (@forEachM_invariant _ _ (Forall bornWell)); [| exact Hacc | exact Hstep].
  intros acc1 key w4 w5 acc2. apply queueMatch_bornWell.
Qed.

Lemma execute_inv p fuel sched w w' o :
  execute p fuel sched w = (w', o) ->
  let w1 := mkWorld (disk w) (out w ++ [CallHeadBucket (bucketName p)]) in
  ((exists err, headBucket (bucketName p) = Rejected err) /\
   w' = w1 /\ o = Throw (Error (loc BucketNotExist [bucketName p]))) \/
  (headBucket (bucketName p) = Fulfilled tt /\
   ((exists e, downloadFiles p fuel w1 = (w', Throw e) /\ o = Throw e) \/
    (downloadFiles p fuel w1 = (w', Hang) /\ o = Hang) \/
    (exists w2 ds,
       downloadFiles p fuel w1 = (w2, Ret ds) /\
       match promiseAll (map dl_state ds) sched with
       | Resolved =>
           w' = mkWorld (disk w2) (out w2 ++ [ConsoleLog (loc TaskCompleted [])])
           /\ o = Ret tt
       | Failed e => w' = w2 /\ o = Throw e
       | Pending => w' = w2 /\ o = Hang
       end))).
Proof.
  unfold execute, testBucketExists, await.
  unfold bind at 1. unfold bind at 1. unfold bind at 1. simpl.
  destruct (headBucket (bucketName p)) as [[] | err]; simpl.
  - intros H. right. split; [reflexivity |]. unfold bind in H.
    destruct (downloadFiles p fuel _) as [w2 [ds | e |]].
    + right. right. exists w2, ds. split; [reflexivity |].
      destruct (promiseAll (map dl_state ds) sched);
        injection H as <- <-; auto.
    + left. exists e. now injection H as <- <-.
    + right. left. now injection H as <- <-.
  - intros [= <- <-]. left. split; [now exists err | auto].
Qed.

(** X16: [execute] can fail with four kinds of error only: the
    [BucketNotExist] error of the pre-flight check, the [FileExistsError]
    of a destination found on disk while overwriting is off, an error
    thrown by [mkdirP], or an error reported by the source stream or the
    sink of one of the transfers. *)
Theorem execute_throws_only p fuel sched w w' e :
  execute p fuel sched w = (w', Throw e) ->
  e = Error (loc BucketNotExist [bucketName p]) \/
  (overwrite p = false /\
   exists key, e = Error (loc FileExistsError [resolveDest p key; key])) \/
  (exists dsk dir, snd (mkdirP dsk dir) = Some e) \/
  (exists i ev, In (i, ev) sched /\ reportsError ev = Some e).
Proof.
  intros H.
  apply execute_inv in H
    as [(_ & _ & Ho)
       | (_ & [(e0 & Hrun & Ho) | [(_ & Ho) | (w2 & ds & Hrun & Hall)]])].
  - left. now injection Ho as ->.
  - injection Ho as <-.
    unfold downloadFiles in Hrun.
    apply bind_inv_throw in Hrun as [Hrun | (w0 & allKeys & Hlist & Hrun)].
    + apply listStage_inv_throw in Hrun as [_ Hmk].
      right. right. left. eexists. eexists. exact Hmk.
    + apply queueStage_inv_throw in Hrun as (Hov & key & _ & _ & ->);
        [| exact (@listStage_Returns p fuel _ _ _ Hlist)].
      right. left. split; [exact Hov | now exists key].
  - discriminate.
  - destruct (promiseAll (map dl_state ds) sched) as [| | e0] eqn:Hp;
      destruct Hall as [_ Ho]; try discriminate.
    injection Ho as <-.
    apply promiseAll_Failed_origin in Hp as [Hin | Hev].
    + right. right. left.
      apply in_map_iff in Hin as (d & Hst & Hd).
      apply downloadFiles_bornWell in Hrun.
      rewrite Forall_forall in Hrun.
      destruct (Hrun d Hd) as [Hpend | (e1 & dsk & dir & Hf & Hmk)];
        [congruence |].
      exists dsk, dir. congruence.
    + right. right. right. exact Hev.
Qed.

(** X17: [execute] returns only after the bucket check succeeded, the
    queueing went through, and the sink of every queued download reported
    its close; the [TaskCompleted] line is then the last thing logged. *)
Theorem execute_completes_only_when_closed p fuel sched w w' :
  execute p fuel sched w = (w', Ret tt) ->
  headBucket (bucketName p) = Fulfilled tt /\
  exists w2 allDownloads,
    downloadFiles p fuel
      (mkWorld (disk w) (out w ++ [CallHeadBucket (bucketName p)]))
    = (w2, Ret allDownloads) /\
    w' = mkWorld (disk w2) (out w2 ++ [ConsoleLog (loc TaskCompleted [])]) /\
    forall i, i < List.length allDownloads -> In (i, SinkClose) sched.
Proof.
  intros H.
  apply execute_inv in H
    as [(_ & _ & Ho)
       | (Hhead & [(e0 & _ & Ho) | [(_ & Ho) | (w2 & ds & Hrun & Hall)]])];
    try discriminate.
  split; [exact Hhead |]. exists w2, ds. split; [exact Hrun |].
  destruct (promiseAll (map dl_state ds) sched) as [| | e0] eqn:Hp;
    destruct Hall as [Hw Ho]; try discriminate.
  split; [exact Hw |]. intros i Hi.
  apply (promiseAll_Resolved_closed _ _ Hp).
  destruct (nth_error ds i) as [d |] eqn:Hd;
    [| apply nth_error_None in Hd; lia].
  rewrite nth_error_map, Hd. simpl. f_equal.
  apply downloadFiles_bornWell in Hrun. rewrite Forall_forall in Hrun.
  destruct (Hrun d (nth_error_In _ _ Hd)) as [Hpend | (e1 & _ & _ & Hf & _)];
    [exact Hpend |].
  exfalso. rewrite promiseAll_eq in Hp.
  destruct (firstFailed (map dl_state ds)) eqn:Hff; [discriminate |].
  rewrite firstFailed_None in Hff. apply (Hff e1).
  apply in_map_iff. exists d. split; [exact Hf | eapply nth_error_In, Hd].
Qed.

Lemma filter_nothing A (f : A -> bool) l :
  (forall x, In x l -> f x = false) -> filter f l = [].
Proof.
  induction l as [| x l IH]; intros H; simpl; [reflexivity |].
  rewrite (H x) by now left. apply IH. intros y Hy. apply H. now right.
Qed.

Lemma queueGlob_nothing p allKeys allDownloads glob w :
  (forall key,
     In key allKeys ->
     minimatch glob (keyToTest (sourceFolder p) key) = false) ->
  exists msg,
    queueGlob p allKeys allDownloads glob w
    = (mkWorld (disk w) (out w ++ [ConsoleLog msg]), Ret allDownloads).
Proof.
  intros Hno. unfold queueGlob.
  erewrite bind_ret_run by apply matchObjectKeys_exact.
  rewrite (filter_nothing _ _ Hno). simpl. eexists. reflexivity.
Qed.

Lemma queueGlobs_nothing p allKeys globs :
  (forall glob key,
     In glob globs -> In key allKeys ->
     minimatch glob (keyToTest (sourceFolder p) key) = false) ->
  forall w,
    exists evs,
      forEachM (queueGlob p allKeys) globs [] w
      = (mkWorld (disk w) (out w ++ evs), Ret []) /\
      Forall logEvent evs.
Proof.
  induction globs as [| glob globs IH]; intros Hno w; simpl.
  - exists []. rewrite app_nil_r. split; [now destruct w | constructor].
  - destruct (queueGlob_nothing p allKeys [] glob w) as [msg Hstep].
    { intros key Hkey. apply Hno; [now left | exact Hkey]. }
    erewrite bind_ret_run by exact Hstep.
    edestruct IH as [evs [Hrun Hevs]];
      [intros g k Hg Hk; apply Hno; [now right | exact Hk] |].
    rewrite Hrun. simpl. exists (ConsoleLog msg :: evs). split.
    + now rewrite <- app_assoc.
    + constructor; [exact I | exact Hevs].
Qed.

(** X18: when no listed key satisfies any glob expression (in particular
    when there is no glob expression), [execute] completes whatever the
    stream schedule is: after the listing it only writes to the console,
    opens no file and requests no object. *)
Theorem execute_nothing_to_download p fuel sched w w0 allKeys :
  headBucket (bucketName p) = Fulfilled tt ->
  listStage p fuel (mkWorld (disk w) (out w ++ [CallHeadBucket (bucketName p)]))
  = (w0, Ret allKeys) ->
  (forall glob key,
     In glob (globExpressions p) -> In key allKeys ->
     minimatch glob (keyToTest (sourceFolder p) key) = false) ->
  exists evs,
    execute p fuel sched w = (mkWorld (disk w0) (out w0 ++ evs), Ret tt) /\
    Forall logEvent evs.
Proof.
  intros Hhead Hlist Hno.
  destruct (queueGlobs_nothing p allKeys (globExpressions p) Hno w0)
    as [evs [Hrun Hevs]].
  exists (evs ++ [ConsoleLog (loc TaskCompleted [])]). split.
  - unfold execute, testBucketExists, await.
    unfold bind at 1. unfold bind at 1. unfold bind at 1. simpl.
    rewrite Hhead. simpl. unfold downloadFiles.
    erewrite bind_ret_run;
      [| erewrite bind_ret_run by exact Hlist; exact Hrun].
    simpl. unfold consoleLog, emit.
    rewrite promiseAll_eq. simpl. now rewrite <- app_assoc.
  - apply Forall_app. split; [exact Hevs | now constructor].
Qed.

Lemma firstFailed_Some ps e0 :
  In (Failed e0) ps -> exists e, firstFailed ps = Some e.
Proof.
  induction ps as [| st ps IH]; simpl; [contradiction |].
  intros [-> | Hin]; [now exists e0 |].
  destruct st; auto. now eexists.
Qed.

(** X24: a download whose promise was rejected at birth fails the run.
    If the queueing went through but the parent directory of some
    destination could not be created, [execute] throws an error of
    [mkdirP] whatever the streams of the other transfers report, and never
    logs completion. *)
Theorem execute_fails_on_rejected_download p fuel sched w w2 allDownloads d e0 :
  headBucket (bucketName p) = Fulfilled tt ->
  downloadFiles p fuel
    (mkWorld (disk w) (out w ++ [CallHeadBucket (bucketName p)]))
  = (w2, Ret allDownloads) ->
  In d allDownloads ->
  dl_state d = Failed e0 ->
  exists e dsk dir,
    execute p fuel sched w = (w2, Throw e) /\
    snd (mkdirP dsk dir) = Some e.
Proof.
  intros Hhead Hrun Hd Hst.
  destruct (firstFailed_Some (map dl_state allDownloads) e0) as [e He].
  { apply in_map_iff. now exists d. }
  pose proof (firstFailed_In _ He) as Hin.
  apply in_map_iff in Hin as (d' & Hst' & Hd').
  pose proof (@downloadFiles_bornWell _ _ _ _ _ Hrun) as Hborn.
  rewrite Forall_forall in Hborn.
  destruct (Hborn d' Hd') as [Hpend | (e1 & dsk & dir & Hf & Hmk)];
    [congruence |].
  exists e, dsk, dir. split; [| congruence].
  unfold execute, testBucketExists, await.
  unfold bind at 1. unfold bind at 1. unfold bind at 1. simpl.
  rewrite Hhead. simpl.
  erewrite bind_ret_run by exact Hrun.
  rewrite promiseAll_eq, He. reflexivity.
Qed.

(** ** Collisions *)

Lemma forEachM_invariant_world A B (I : World -> B -> Prop) (f : B -> A -> M B) l :
  (forall acc x w w' acc', I w acc -> f acc x w = (w', Ret acc') -> I w' acc') ->
  forall acc w w' r,
    I w acc -> forEachM f l acc w = (w', Ret r) -> I w' r.
Proof.
  intros Hf. induction l as [| x l IH]; intros acc w w' r Hacc H; simpl in H.
  - now injection H as <- <-.
  - apply bind_inv_ret in H as (w1 & acc1 & Hstep & H).
    eapply IH; [| exact H]. eapply Hf; eassumption.
Qed.

Lemma listStage_opens_nothing p fuel :
  Emits (fun ev => forall dest, ev <> CallCreateWriteStream dest)
        (listStage p fuel).
Proof.
  unfold listStage. apply Emits_bind; [now apply Emits_emit |].
  intros _. apply Emits_bind;
    [intros w; exists []; simpl; now rewrite app_nil_r |].
  intros ex. apply Emits_bind.
  - destruct (negb ex); [| apply Emits_ret].
    now apply tlMkdirP_Emits.
  - intros _. eapply Emits_weaken; [| apply fetchAllObjectKeys_Emits].
    intros ev Hev dest ->. exact Hev.
Qed.

Lemma queueMatch_opens_its_destination p allDownloads key :
  Emits (fun ev => forall dest,
           ev = CallCreateWriteStream dest -> dest = resolveDest p key)
        (queueMatch p allDownloads key).
Proof.
  unfold queueMatch.
  apply Emits_bind; [intros w; exists []; simpl; now rewrite app_nil_r |].
  intros ex. apply Emits_bind.
  - destruct ex; [destruct (overwrite p) |].
    + now apply Emits_emit.
    + apply Emits_throw.
    + apply Emits_ret.
  - intros _. apply Emits_bind; [now apply Emits_emit |].
    intros _. apply Emits_bind; [| intros d; apply Emits_ret].
    apply downloadFile_Emits; intros dest; [discriminate | | discriminate].
    now intros [= <-].
Qed.

Lemma queueMatch_accounted p w0 allDownloads key w w' ds :
  streamsAccounted w0 w allDownloads ->
  queueMatch p allDownloads key w = (w', Ret ds) ->
  streamsAccounted w0 w' ds.
Proof.
  intros Hacc Hrun dest Hin.
  destruct (queueMatch_ret _ _ _ _ Hrun) as [st ->].
  destruct (queueMatch_opens_its_destination p allDownloads key w)
    as [evs [Hout Hevs]].
  rewrite Hrun in Hout. simpl in Hout. rewrite Hout in Hin.
  apply in_app_or in Hin as [Hin | Hin].
  - destruct (Hacc dest Hin) as [H0 | (d & Hd & Hdest)]; [now left |].
    right. exists d. split; [apply in_or_app; now left | exact Hdest].
  - rewrite Forall_forall in Hevs.
    rewrite (Hevs _ Hin dest eq_refl).
    right. eexists. split; [apply in_or_app; right; now left | reflexivity].
Qed.

Lemma queueGlob_accounted p allKeys w0 allDownloads glob w w' ds :
  streamsAccounted w0 w allDownloads ->
  queueGlob p allKeys allDownloads glob w = (w', Ret ds) ->
  streamsAccounted w0 w' ds.
Proof.
  intros Hacc Hrun. unfold queueGlob in Hrun.
  apply bind_inv_ret in Hrun as (w1 & matched & Hmatch & Hrun).
  eapply (@forEachM_invariant_world _ _ (streamsAccounted w0));
    [| | exact Hrun].
  - intros acc key wa wb acc'. apply queueMatch_accounted.
  - rewrite matchObjectKeys_exact in Hmatch. injection Hmatch as <- _.
    intros dest Hin. simpl in Hin.
    apply in_app_or in Hin as [Hin | [Hin | Hin]];
      [now apply Hacc | discriminate |].
    apply in_map_iff in Hin as (key & Hkey & _). discriminate.
Qed.

(** Up to the check of a match, the write streams opened by the run are
    those of the downloads queued so far. *)
Lemma reachesMatch_accounted p fuel w matchedKey allDownloads w3 :
  reachesMatch p fuel w matchedKey allDownloads w3 ->
  streamsAccounted w w3 allDownloads.
Proof.
  intros (allKeys & w0 & gs1 & g & gs2 & acc1 & w1 & w2 & ks1 & ks2
          & Hlist & _ & Hgs1 & Hmatch & Hks1).
  assert (H0 : streamsAccounted w w0 []).
  { intros dest Hin.
    destruct (listStage_opens_nothing p fuel w) as [evs [Hout Hevs]].
    rewrite Hlist in Hout. simpl in Hout. rewrite Hout in Hin.
    apply in_app_or in Hin as [Hin | Hin]; [now left |].
    rewrite Forall_forall in Hevs. destruct (Hevs _ Hin dest eq_refl). }
  assert (H1 : streamsAccounted w w1 acc1).
  { eapply (@forEachM_invariant_world _ _ (streamsAccounted w));
      [| exact H0 | exact Hgs1].
    intros acc glob wa wb acc'. apply queueGlob_accounted. }
  assert (H2 : streamsAccounted w w2 acc1).
  { rewrite matchObjectKeys_exact in Hmatch. injection Hmatch as <- _.
    intros dest Hin. simpl in Hin.
    apply in_app_or in Hin as [Hin | [Hin | Hin]];
      [now apply H1 | discriminate |].
    apply in_map_iff in Hin as (key & Hkey & _). discriminate. }
  eapply (@forEachM_invariant_world _ _ (streamsAccounted w));
    [| exact H2 | exact Hks1].
  intros acc key wa wb acc'. apply queueMatch_accounted.
Qed.

(** C5 (amended): when the run gets to a match whose destination exists on
    disk, then without overwrite permission the whole operation throws the
    [FileExistsError] message built from the local path and the remote key
    and ends in the very world of the check: nothing is logged, created,
    opened or requested after it, so the download of the match never
    starts.  No write stream on that path is opened in the whole run,
    unless an earlier match of the same run was already queued for that
    path; such a transfer is not cancelled.  With overwrite permission the
    match goes on: the warning is logged first, then the download is
    queued. *)
Theorem downloadFiles_existing_destination p fuel w matchedKey allDownloads w3 :
  reachesMatch p fuel w matchedKey allDownloads w3 ->
  existsSync (disk w3) (resolveDest p matchedKey) = true ->
  (overwrite p = false ->
   downloadFiles p fuel w
   = (w3, Throw (Error (loc FileExistsError
                          [resolveDest p matchedKey; matchedKey]))) /\
   (forall sched wb,
      testBucketExists (bucketName p) wb = (w, Ret true) ->
      execute p fuel sched wb
      = (w3, Throw (Error (loc FileExistsError
                             [resolveDest p matchedKey; matchedKey])))) /\
   (~ In (CallCreateWriteStream (resolveDest p matchedKey)) (out w) ->
    Forall (fun d => dl_dest d <> resolveDest p matchedKey) allDownloads ->
    ~ In (CallCreateWriteStream (resolveDest p matchedKey))
         (out (fst (downloadFiles p fuel w))))) /\
  (overwrite p = true ->
   exists w4 st evs,
     queueMatch p allDownloads matchedKey w3
     = (w4, Ret (allDownloads
                   ++ [mkDownload (getObjectParams p matchedKey)
                                  (resolveDest p matchedKey) st])) /\
     out w4 = out w3
              ++ ConsoleLog (loc FileOverwriteWarning
                               [resolveDest p matchedKey; matchedKey])
              :: ConsoleLog (loc QueueingDownload [matchedKey]) :: evs).
Proof.
  intros Hreach Hex.
  pose proof (reachesMatch_accounted Hreach) as Hacc.
  destruct Hreach as (allKeys & w0 & gs1 & g & gs2 & acc1 & w1 & w2 & ks1 & ks2
                      & Hlist & Hglobs & Hgs1 & Hmatch & Hks1).
  split.
  - intros Hov.
    assert (Hrun : downloadFiles p fuel w
                   = (w3, Throw (Error (loc FileExistsError
                                          [resolveDest p matchedKey; matchedKey])))).
    { unfold downloadFiles. erewrite bind_ret_run by exact Hlist.
      unfold queueStage. rewrite Hglobs.
      eapply forEachM_throws_at; [exact Hgs1 |].
      unfold queueGlob. erewrite bind_ret_run by exact Hmatch.
      eapply forEachM_throws_at; [exact Hks1 |].
      now apply queueMatch_refuses. }
    split; [exact Hrun |]. split.
    + intros sched wb Hhead. unfold execute.
      erewrite bind_ret_run by exact Hhead. simpl.
      erewrite bind_throw_run by exact Hrun. reflexivity.
    + intros Hstart Hearlier Hin. rewrite Hrun in Hin. simpl in Hin.
      destruct (Hacc _ Hin) as [H0 | (d & Hd & Hdest)]; [exact (Hstart H0) |].
      rewrite Forall_forall in Hearlier. exact (Hearlier d Hd Hdest).
  - intros Hov. now apply queueMatch_overwrites.
Qed.

(** ** The request listener of [createAndConfigureSdkClient] *)

Lemma Emits_tryCatch A P (body : M A) handler :
  Emits P body -> (forall e, Emits P (handler e)) ->
  Emits P (tryCatch body handler).
Proof.
  intros Hb Hh w. unfold tryCatch.
  destruct (Hb w) as [evs1 [Hout1 Hevs1]].
  destruct (body w) as [w1 [a | e |]]; simpl in *.
  - now exists evs1.
  - destruct (Hh e w1) as [evs2 [Hout2 Hevs2]].
    exists (evs1 ++ evs2). split.
    + now rewrite Hout2, Hout1, app_assoc.
    + now apply Forall_app.
  - now exists evs1.
Qed.

Lemma KeepsDisk_tryCatch A (body : M A) handler :
  KeepsDisk body -> (forall e, KeepsDisk (handler e)) ->
  KeepsDisk (tryCatch body handler).
Proof.
  intros Hb Hh w. unfold tryCatch. specialize (Hb w).
  destruct (body w) as [w1 [a | e |]]; simpl in *; try exact Hb.
  now rewrite Hh.
Qed.

Lemma KeepsDisk_throw A e : KeepsDisk (@throw _ A e).
Proof. now intros w. Qed.

Lemma NeverHangs_ret A (a : A) : NeverHangs (ret a).
Proof. intros w w'. discriminate. Qed.

Lemma NeverHangs_throw A e : NeverHangs (@throw _ A e).
Proof. intros w w'. discriminate. Qed.

Lemma NeverHangs_emit ev : NeverHangs (emit ev).
Proof. intros w w'. discriminate. Qed.

Lemma NeverHangs_bind A B (m : M A) (k : A -> M B) :
  NeverHangs m -> (forall a, NeverHangs (k a)) -> NeverHangs (bind m k).
Proof.
  intros Hm Hk w w'. unfold bind.
  destruct (m w) as [w1 [a | e |]] eqn:Hrun.
  - apply Hk.
  - discriminate.
  - exfalso. exact (Hm _ _ Hrun).
Qed.

Lemma NeverHangs_forEachM A B (f : B -> A -> M B) l :
  (forall acc x, NeverHangs (f acc x)) ->
  forall acc, NeverHangs (forEachM f l acc).
Proof.
  intros Hf. induction l as [| x l IH]; intros acc; simpl.
  - apply NeverHangs_ret.
  - apply NeverHangs_bind; [apply Hf | exact IH].
Qed.

Lemma logHeaders_facts headers :
  Emits debugEvent (logHeaders debug headers) /\
  KeepsDisk (logHeaders debug headers) /\
  NeverHangs (logHeaders debug headers).
Proof.
  unfold logHeaders. split; [| split].
  - apply Emits_forEachM. intros [] k _. now apply Emits_emit.
  - apply KeepsDisk_forEachM. intros [] k. apply KeepsDisk_emit.
  - apply NeverHangs_forEachM. intros [] k. apply NeverHangs_emit.
Qed.

(** What follows the first line inside the [try] block. *)
Lemma onComplete_body_facts logRequestData logResponseData operation response :
  exists rest : M unit,
    (forall w,
       onComplete debug logRequestData logResponseData operation response w
       = tryCatch
           (debug (lit "AWS " ++ operation ++ lit " request ID: "
                       ++ requestId response) ;; rest)
           (fun err =>
              debug (lit "  Error inspecting request/response data, "
                         ++ errToString err)) w) /\
    Emits debugEvent rest /\ KeepsDisk rest /\ NeverHangs rest.
Proof.
  eexists. split; [intros w; reflexivity |].
  repeat split; cbv zeta;
    repeat first
      [ apply Emits_bind; [| intros ?]
      | apply KeepsDisk_bind; [| intros ?]
      | apply NeverHangs_bind; [| intros ?]
      | apply Emits_ret | apply Emits_throw
      | apply KeepsDisk_ret | apply KeepsDisk_throw
      | apply NeverHangs_ret | apply NeverHangs_throw
      | apply KeepsDisk_emit | apply NeverHangs_emit
      | apply Emits_emit; exact I
      | apply logHeaders_facts
      | match goal with
        | |- context [match ?x with _ => _ end] => destruct x
        end ].
Qed.

(** X19: the request listener cannot break a request.  Whatever shape
    the response has and whatever the two logging switches say, it returns
    normally, leaves the disk alone, writes only debug lines, and the first
    of them is the request-ID line. *)
Theorem onComplete_always_returns logRequestData logResponseData operation
    response w :
  exists evs,
    onComplete debug logRequestData logResponseData operation response w
    = (mkWorld (disk w)
         (out w
          ++ Debug (lit "AWS " ++ operation ++ lit " request ID: "
                        ++ requestId response) :: evs),
       Ret tt) /\
    Forall debugEvent evs.
Proof.
  destruct (onComplete_body_facts logRequestData logResponseData operation
              response) as (rest & Heq & Hemits & Hdisk & Hhang).
  rewrite Heq. unfold tryCatch, bind at 1. simpl.
  set (w1 := mkWorld (disk w) (out w ++ [_])).
  destruct (Hemits w1) as [evs [Hout Hevs]]. specialize (Hdisk w1).
  destruct (rest w1) as [w2 [[] | e |]] eqn:Hrun; simpl in *.
  - exists evs. split; [| exact Hevs].
    destruct w2 as [d2 o2]. simpl in *. subst.
    now rewrite <- app_assoc.
  - exists (evs ++ [Debug (lit "  Error inspecting request/response data, "
                                ++ errToString e)]).
    split.
    + unfold debug, emit. destruct w2 as [d2 o2]. simpl in *. subst.
      now rewrite <- !app_assoc.
    + apply Forall_app. split; [exact Hevs | now constructor].
  - exfalso. exact (Hhang _ _ Hrun).
Qed.

Ltac run_listener :=
  cbv beta iota zeta
      delta [onComplete tryCatch bind debug emit ret throw
             request httpResponse requestId rq_httpRequest
             hq_path hq_headers hs_statusCode hs_headers out disk].

Lemma debugEach_run (g : jsstring -> jsstring) keys w :
  forEachM (fun (_ : unit) key => debug (g key)) keys tt w
  = (mkWorld (disk w) (out w ++ map (fun key => Debug (g key)) keys), Ret tt).
Proof.
  revert w. induction keys as [| key keys IH]; intros w; simpl.
  - rewrite app_nil_r. now destruct w.
  - unfold bind, debug, emit. simpl. rewrite IH. simpl.
    now rewrite <- app_assoc.
Qed.

Lemma headerValue_own headers name value :
  NoDup (objectKeys headers) ->
  In (name, value) headers ->
  headerValue headers name = value.
Proof.
  induction headers as [| [k v] headers IH]; intros Hnd Hin; simpl in *.
  - contradiction.
  - inversion Hnd as [| k' ks Hk Hnd']; subst.
    destruct Hin as [[= -> ->] | Hin].
    + now rewrite strictEq_refl.
    + destruct (strictEq k name) eqn:Hkn.
      * apply strictEq_eq in Hkn. subst k. exfalso. apply Hk.
        apply in_map_iff. now exists (name, value).
      * now apply IH.
Qed.

Lemma logHeaders_run headers w :
  NoDup (objectKeys headers) ->
  logHeaders debug headers w
  = (mkWorld (disk w) (out w ++ map Debug (headerLines headers)), Ret tt).
Proof.
  intros Hnd. unfold logHeaders.
  rewrite (debugEach_run
             (fun element =>
                lit "    " ++ element ++ lit "=" ++ headerValue headers element)).
  do 3 f_equal. unfold objectKeys, headerLines. rewrite !map_map.
  apply map_ext_in. intros [k v] Hin. simpl.
  now rewrite (headerValue_own _ _ _ Hnd Hin).
Qed.

(** X20: for a response that has its request, its HTTP request with
    headers and its HTTP response, the listener writes the request-ID
    line, then, if request logging is on, the request banner, the path,
    and each request header once as [name=value] in the order of the
    names; then, if response logging is on, the response banner, the
    status code as the template renders it and, when the response has
    headers, each of them in the same way.  Nothing else is written. *)
Theorem onComplete_lines logRequestData logResponseData operation rid path
    requestHeaders status responseHeaders w :
  NoDup (objectKeys requestHeaders) ->
  (forall hs, responseHeaders = Some hs -> NoDup (objectKeys hs)) ->
  onComplete debug logRequestData logResponseData operation
    (mkAwsResponse rid
       (Some (mkAwsRequest (Some (mkHttpRequest path (Some requestHeaders)))))
       (Some (mkHttpResponse status responseHeaders)))
    w
  = (mkWorld (disk w)
       (out w
        ++ map Debug
             ((lit "AWS " ++ operation ++ lit " request ID: " ++ rid)
              :: (if logRequestData
                  then [lit "---Request data for " ++ rid ++ lit "---";
                        lit "  Path: " ++ path;
                        lit "  Headers:"]
                       ++ headerLines requestHeaders
                  else [])
              ++ (if logResponseData
                  then [lit "---Response data for request " ++ rid ++ lit "---";
                        lit "  Status code: " ++ status]
                       ++ match responseHeaders with
                          | Some hs => lit "  Headers:" :: headerLines hs
                          | None => []
                          end
                  else []))),
     Ret tt).
Proof.
  intros Hreq Hres.
  assert (Hres' : match responseHeaders with
                  | Some hs => NoDup (objectKeys hs)
                  | None => True
                  end).
  { destruct responseHeaders; [now apply Hres | exact I]. }
  clear Hres.
  destruct logRequestData, logResponseData, responseHeaders as [hs |];
    run_listener;
    rewrite ?logHeaders_run by assumption; run_listener;
    rewrite ?logHeaders_run by assumption; run_listener;
    cbn [map app]; rewrite ?map_app, <- ?app_assoc; cbn [map app];
    rewrite ?app_nil_r; reflexivity.
Qed.

(** X21: a response that has no request attached makes the listener write
    the request-ID line and the error line, and nothing else, even when
    both logging switches are off. *)
Theorem onComplete_without_request logRequestData logResponseData operation
    rid httpResponse_ w :
  onComplete debug logRequestData logResponseData operation
    (mkAwsResponse rid None httpResponse_) w
  = (mkWorld (disk w)
       (out w
        ++ [Debug (lit "AWS " ++ operation ++ lit " request ID: " ++ rid);
            Debug (lit "  Error inspecting request/response data, "
                       ++ errToString (cannotRead (lit "httpRequest")))]),
     Ret tt).
Proof.
  run_listener. rewrite <- ?app_assoc. cbn [map app]. reflexivity.
Qed.

(** X22: when request logging is on and the HTTP request has no headers
    object, the listener stops after the [Headers:] line with the error
    line; the response data is not written, even if response logging is on
    and the response is complete. *)
Theorem onComplete_without_request_headers logResponseData operation rid path
    httpResponse_ w :
  onComplete debug true logResponseData operation
    (mkAwsResponse rid
       (Some (mkAwsRequest (Some (mkHttpRequest path None))))
       httpResponse_) w
  = (mkWorld (disk w)
       (out w
        ++ map Debug
             [lit "AWS " ++ operation ++ lit " request ID: " ++ rid;
              lit "---Request data for " ++ rid ++ lit "---";
              lit "  Path: " ++ path;
              lit "  Headers:";
              lit "  Error inspecting request/response data, "
                  ++ errToString cannotConvert]),
     Ret tt).
Proof.
  run_listener. rewrite <- ?app_assoc. cbn [map app]. reflexivity.
Qed.

(** ** The user agent *)

Lemma split_at_separator (sep : N) a1 a2 r1 r2 :
  ~ In sep a1 -> ~ In sep a2 ->
  a1 ++ sep :: r1 = a2 ++ sep :: r2 ->
  a1 = a2 /\ r1 = r2.
Proof.
  revert a2. induction a1 as [| x a1 IH]; intros [| y a2] H1 H2 H; simpl in *.
  - now injection H as ->.
  - injection H as <- _. exfalso. apply H2. now left.
  - injection H as -> _. exfalso. apply H1. now left.
  - injection H as -> H.
    destruct (IH a2) as [-> ->]; auto.
Qed.

Lemma digits_exclude (c : N) l :
  isDigit c = false ->
  Forall (fun x => isDigit x = true) l ->
  ~ In c l.
Proof.
  intros Hc Hl Hin. rewrite Forall_forall in Hl.
  specialize (Hl c Hin). congruence.
Qed.

(** X23: the user agent tells the task and its version apart.  When two
    manifests are both found and read, and their version parts are written
    with digits only, equal user agents after
    [setSdkUserAgentFromManifest] mean equal versions and equal task
    names. *)
Theorem setSdkUserAgentFromManifest_injective readManifest
    path1 d1 g1 m1 v1 path2 d2 g2 m2 v2 :
  existsSync d1 path1 = true ->
  readManifest d1 path1 = Fulfilled m1 ->
  mf_version m1 = Some v1 ->
  existsSync d2 path2 = true ->
  readManifest d2 path2 = Fulfilled m2 ->
  mf_version m2 = Some v2 ->
  numericVersion v1 ->
  numericVersion v2 ->
  userAgent (fst (setSdkUserAgentFromManifest readManifest path1 d1 g1))
  = userAgent (fst (setSdkUserAgentFromManifest readManifest path2 d2 g2)) ->
  v1 = v2 /\ mf_name m1 = mf_name m2.
Proof.
  intros Hex1 Hrd1 Hv1 Hex2 Hrd2 Hv2 (HM1 & Hm1 & Hp1) (HM2 & Hm2 & Hp2).
  unfold setSdkUserAgentFromManifest.
  rewrite Hex1, Hrd1, Hv1, Hex2, Hrd2, Hv2. simpl fst. simpl userAgent.
  unfold userAgentString. intros H.
  apply app_inv_head in H.
  change (lit ".") with [46%N] in H.
  change (lit " exec-env/VSTS-") with (32%N :: lit "exec-env/VSTS-") in H.
  cbn [app] in H.
  apply split_at_separator in H as [HM H];
    [| now apply digits_exclude | now apply digits_exclude].
  apply split_at_separator in H as [Hm H];
    [| now apply digits_exclude | now apply digits_exclude].
  apply split_at_separator in H as [Hp H];
    [| now apply digits_exclude | now apply digits_exclude].
  apply app_inv_head in H.
  split; [| exact H].
  destruct v1, v2. simpl in *. congruence.
Qed.

End MoreProperties.

(** * More concrete runs *)

Import SampleSdk.

Lemma fetchAllObjectKeys_requests_witness :
  let p := params [lit "*.txt"] false false in
  let req := mkListObjectsRequest (lit "bkt") (Some (lit "docs")) in
  Paged (S3 := flakyS3) p None [page1] (PageFailed timeoutError) /\
  1 < 5 /\
  exists evs,
    out (fst (fetchAllObjectKeys (S3 := flakyS3) p 5 emptyWorld))
    = out emptyWorld ++ evs /\
    pageRequests evs = [req None; req (Some (lit "1"))].
Proof.
  intros p req.
  assert (H : Paged (S3 := flakyS3) p None [page1] (PageFailed timeoutError)).
  { eapply Paged_next; [reflexivity | reflexivity |].
    apply Paged_failed. reflexivity. }
  split; [exact H |]. split; [lia |].
  apply (fetchAllObjectKeys_requests (fuel := 5) emptyWorld H). simpl; lia.
Defined.

Lemma matchObjectKeys_idempotent_witness :
  let keys := [lit "docs/a.txt"; lit "docs/c.log"; lit "docs/b.txt"] in
  exists w1 matchedKeys,
    matchObjectKeys keys (Some (lit "docs")) (lit "*.txt") emptyWorld
    = (w1, Ret matchedKeys) /\
    matchedKeys = [lit "docs/a.txt"; lit "docs/b.txt"] /\
    snd (matchObjectKeys matchedKeys (Some (lit "docs")) (lit "*.txt") emptyWorld)
    = Ret matchedKeys.
Proof.
  intros keys. eexists. eexists.
  match goal with |- ?R /\ _ => assert (Hrun : R) end.
  { vm_compute. reflexivity. }
  split; [exact Hrun |]. split; [reflexivity |].
  eapply matchObjectKeys_idempotent. exact Hrun.
Defined.

Lemma matchObjectKeys_short_key_witness :
  let keys := [lit "docs"; lit "docs/a.txt"] in
  truthy (Some (lit "docs")) = true /\
  List.length (lit "docs") <= List.length (str (Some (lit "docs"))) + 1 /\
  exists w' matchedKeys,
    matchObjectKeys keys (Some (lit "docs")) (lit "*.txt") emptyWorld
    = (w', Ret matchedKeys) /\
    (In (lit "docs") matchedKeys <->
     In (lit "docs") keys /\ minimatch (lit "*.txt") [] = true).
Proof.
  intros keys. split; [reflexivity |]. split; [simpl; lia |].
  apply matchObjectKeys_short_key; [reflexivity | simpl; lia].
Defined.

Lemma matchObjectKeys_prefix_length_only_witness :
  let keys := [lit "docs/a.txt"; lit "docs/c.log"] in
  truthy (Some (lit "docs")) = true /\
  truthy (Some (lit "abcd")) = true /\
  List.length (str (Some (lit "docs"))) = List.length (str (Some (lit "abcd"))) /\
  snd (matchObjectKeys keys (Some (lit "docs")) (lit "*.txt") emptyWorld)
  = snd (matchObjectKeys keys (Some (lit "abcd")) (lit "*.txt") emptyWorld).
Proof.
  intros keys. repeat (split; [reflexivity |]).
  apply matchObjectKeys_prefix_length_only; reflexivity.
Defined.

Lemma promiseAll_resolves_iff_witness :
  let ps := [Pending; Pending] in
  let sched := [(1, SinkClose); (0, Chunk); (0, SinkClose)] in
  firstFailed ps = None /\
  (forall i ev, In (i, ev) sched -> reportsError ev = None) /\
  (forall i, nth_error ps i = Some Pending -> In (i, SinkClose) sched) /\
  promiseAll ps sched = Resolved.
Proof.
  intros ps sched.
  assert (Herr : forall i ev, In (i, ev) sched -> reportsError ev = None).
  { intros i ev H. simpl in H.
    repeat (destruct H as [H | H]; [injection H as _ <-; reflexivity |]).
    contradiction. }
  assert (Hclose : forall i, nth_error ps i = Some Pending ->
                             In (i, SinkClose) sched).
  { intros [| [| i]] H; simpl; auto.
    simpl in H. destruct i; discriminate. }
  split; [reflexivity |]. split; [exact Herr |]. split; [exact Hclose |].
  apply promiseAll_resolves_iff; [reflexivity | exact Herr | exact Hclose].
Defined.

Lemma downloadFiles_throws_only_witness :
  let p := params [lit "*.txt"] false false in
  let w := worldWith [lit "target"; lit "target/docs/b.txt"] in
  exists w',
    downloadFiles (S3 := goodS3) p 5 w
    = (w', Throw (Error (loc FileExistsError
                           [lit "target/docs/b.txt"; lit "docs/b.txt"]))) /\
    overwrite p = false /\
    exists key,
      wanted p key /\
      existsSync (disk w') (resolveDest p key) = true /\
      Error (loc FileExistsError [lit "target/docs/b.txt"; lit "docs/b.txt"])
      = Error (loc FileExistsError [resolveDest p key; key]).
Proof.
  intros p w. eexists.
  match goal with |- ?R /\ _ => assert (Hrun : R) end.
  { vm_compute. reflexivity. }
  split; [exact Hrun |].
  apply downloadFiles_throws_only in Hrun as [[Hex _] | Hright].
  - discriminate Hex.
  - exact Hright.
Defined.

Lemma execute_throws_only_witness :
  let p := params [lit "*.txt"] false false in
  let sched := [(0, SinkClose); (1, SourceError timeoutError)] in
  exists w',
    execute (S3 := goodS3) p 5 sched emptyWorld = (w', Throw timeoutError) /\
    (timeoutError = Error (loc BucketNotExist [bucketName p]) \/
     (overwrite p = false /\
      exists key,
        timeoutError = Error (loc FileExistsError [resolveDest p key; key])) \/
     (exists dsk dir, snd (mkdirP dsk dir) = Some timeoutError) \/
     (exists i ev, In (i, ev) sched /\ reportsError ev = Some timeoutError)).
Proof.
  intros p sched. eexists.
  match goal with |- ?R /\ _ => assert (Hrun : R) end.
  { vm_compute. reflexivity. }
  split; [exact Hrun |].
  eapply execute_throws_only. exact Hrun.
Defined.

Lemma execute_completes_only_when_closed_witness :
  let p := params [lit "*.txt"] false false in
  let sched := [(1, SinkClose); (0, Chunk); (0, SinkClose)] in
  exists w',
    execute (S3 := goodS3) p 5 sched emptyWorld = (w', Ret tt) /\
    exists w2 allDownloads,
      downloadFiles (S3 := goodS3) p 5
        (mkWorld (disk emptyWorld)
                 (out emptyWorld ++ [CallHeadBucket (bucketName p)]))
      = (w2, Ret allDownloads) /\
      w' = mkWorld (disk w2) (out w2 ++ [ConsoleLog (loc TaskCompleted [])]) /\
      forall i, i < List.length allDownloads -> In (i, SinkClose) sched.
Proof.
  intros p sched. eexists.
  match goal with |- ?R /\ _ => assert (Hrun : R) end.
  { vm_compute. reflexivity. }
  split; [exact Hrun |].
  apply execute_completes_only_when_closed in Hrun as [_ Hrest].
  exact Hrest.
Defined.

Lemma execute_nothing_to_download_witness :
  let p := params [lit "*.zip"] false false in
  let sched := [(0, SourceError timeoutError)] in
  exists w0 allKeys evs,
    listStage (S3 := goodS3) p 5
      (mkWorld (disk emptyWorld)
               (out emptyWorld ++ [CallHeadBucket (bucketName p)]))
    = (w0, Ret allKeys) /\
    execute (S3 := goodS3) p 5 sched emptyWorld
    = (mkWorld (disk w0) (out w0 ++ evs), Ret tt) /\
    Forall logEvent evs.
Proof.
  intros p sched. eexists. eexists.
  match goal with |- exists evs, ?R /\ _ => assert (Hlist : R) end.
  { vm_compute. reflexivity. }
  edestruct (execute_nothing_to_download (S3 := goodS3) p 5 sched emptyWorld)
    as [evs [Hrun Hevs]]; [reflexivity | exact Hlist | |].
  - intros glob key [<- | []] Hkey. simpl in Hkey.
    repeat (destruct Hkey as [<- | Hkey]; [reflexivity |]).
    contradiction.
  - exists evs. split; [exact Hlist |]. split; [exact Hrun | exact Hevs].
Defined.

Lemma onComplete_lines_witness :
  NoDup (objectKeys [(lit "Host", lit "s3.amazonaws.com");
                     (lit "X-Amz-Date", lit "20180101T000000Z")]) /\
  out (fst (onComplete debug true true (lit "listObjects") sampleResponse
              emptyWorld))
  = map Debug
      [lit "AWS listObjects request ID: REQ1";
       lit "---Request data for REQ1---";
       lit "  Path: /bkt?prefix=docs";
       lit "  Headers:";
       lit "    Host=s3.amazonaws.com";
       lit "    X-Amz-Date=20180101T000000Z";
       lit "---Response data for request REQ1---";
       lit "  Status code: 200";
       lit "  Headers:";
       lit "    content-type=application/xml"].
Proof.
  assert (H1 : NoDup (objectKeys [(lit "Host", lit "s3.amazonaws.com");
                                  (lit "X-Amz-Date", lit "20180101T000000Z")])).
  { repeat constructor; simpl; intros H;
      repeat (destruct H as [H | H]; [discriminate |]); exact H. }
  split; [exact H1 |].
  unfold sampleResponse. rewrite onComplete_lines.
  - reflexivity.
  - exact H1.
  - intros hs [= <-]. repeat constructor. intros [].
Defined.

Lemma setSdkUserAgentFromManifest_injective_witness :
  let run := fun path =>
    setSdkUserAgentFromManifest (FSys := listDisk) manifests path manifestDisk
      defaultGlobals in
  userAgent (fst (run (lit "S3Download/task.json")))
  = lit "AWS-VSTS/1.0.21 exec-env/VSTS-S3Download" /\
  userAgent (fst (run (lit "S3Download/task.json")))
  = userAgent (fst (run (lit "copy/task.json"))) /\
  mf_name (manifestOf "S3Download" 1 0 21) = mf_name (manifestOf "S3Download" 1 0 21).
Proof.
  intros run. split; [reflexivity |]. split; [reflexivity |].
  assert (Hnum : numericVersion
                   (mkManifestVersion (versionPart 1) (versionPart 0)
                                      (versionPart 21))).
  { repeat split; repeat constructor. }
  refine (proj2 (@setSdkUserAgentFromManifest_injective listDisk v8
                   manifests
                   (lit "S3Download/task.json") manifestDisk defaultGlobals
                   (manifestOf "S3Download" 1 0 21) _
                   (lit "copy/task.json") manifestDisk defaultGlobals
                   (manifestOf "S3Download" 1 0 21) _
                   eq_refl eq_refl eq_refl eq_refl eq_refl eq_refl
                   Hnum Hnum eq_refl)).
Defined.

Lemma execute_fails_on_rejected_download_witness :
  let p := params [lit "*.txt"] false false in
  let w := mkWorld (FSys := readOnlyDocs) [lit "target"] [] in
  let sched := [(0, SinkClose); (1, SinkClose)] in
  snd (execute (FSys := readOnlyDocs) (S3 := goodS3) p 5 sched w)
  = Throw accessDenied /\
  exists w2 e dsk dir,
    execute (FSys := readOnlyDocs) (S3 := goodS3) p 5 sched w = (w2, Throw e) /\
    snd (mkdirP (FileSys := readOnlyDocs) dsk dir) = Some e.
Proof.
  intros p w sched. split; [vm_compute; reflexivity |].
  eexists.
  eapply (execute_fails_on_rejected_download (FSys := readOnlyDocs)
            (S3 := goodS3) p 5 sched w).
  - reflexivity.
  - vm_compute. reflexivity.
  - left. reflexivity.
  - reflexivity.
Defined.

(** [docs/a.txt] satisfies [*.txt] and [a.*], the target is empty and
    overwriting is off.  The first match opens a write stream on
    [target/docs/a.txt]; at the second match that path is on disk, so the
    run throws the [FileExistsError] for it, after a write to the very
    path was started. *)
Lemma downloadFiles_collision_after_own_write :
  let p := params [lit "*.txt"; lit "a.*"] false false in
  let dest := lit "target/docs/a.txt" in
  exists allDownloads w3,
    reachesMatch (S3 := goodS3) p 5 emptyWorld (lit "docs/a.txt") allDownloads w3 /\
    resolveDest p (lit "docs/a.txt") = dest /\
    existsSync (disk w3) dest = true /\
    overwrite p = false /\
    downloadFiles (S3 := goodS3) p 5 emptyWorld
    = (w3, Throw (Error (loc FileExistsError [dest; lit "docs/a.txt"]))) /\
    out emptyWorld = [] /\
    In (CallCreateWriteStream dest) (out w3).
Proof.
  intros p dest. eexists. eexists.
  split.
  { unfold reachesMatch.
    eexists _, _, [lit "*.txt"], (lit "a.*"), [], _, _, _, [], [].
    split; [vm_compute; reflexivity |]. split; [reflexivity |].
    split; [vm_compute; reflexivity |]. split; [vm_compute; reflexivity |].
    vm_compute; reflexivity. }
  split; [reflexivity |]. split; [reflexivity |]. split; [reflexivity |].
  split; [vm_compute; reflexivity |]. split; [reflexivity |].
  vm_compute. tauto.
Qed.

(** [target/docs/b.txt] is on disk before the run and overwriting is off:
    the run stops at the second match, after the first has been queued,
    and no write stream on [target/docs/b.txt] is ever opened. *)
Lemma downloadFiles_existing_destination_witness :
  let p := params [lit "*.txt"] false false in
  let w := worldWith [lit "target"; lit "target/docs/b.txt"] in
  exists allDownloads w3,
    reachesMatch (S3 := goodS3) p 5 w (lit "docs/b.txt") allDownloads w3 /\
    existsSync (disk w3) (resolveDest p (lit "docs/b.txt")) = true /\
    overwrite p = false /\
    map keyOf allDownloads = [lit "docs/a.txt"] /\
    downloadFiles (S3 := goodS3) p 5 w
    = (w3, Throw (Error (loc FileExistsError
                           [lit "target/docs/b.txt"; lit "docs/b.txt"]))) /\
    ~ In (CallCreateWriteStream (lit "target/docs/b.txt"))
         (out (fst (downloadFiles (S3 := goodS3) p 5 w))).
Proof.
  intros p w. eexists. eexists.
  match goal with |- ?R /\ _ => assert (Hreach : R) end.
  { unfold reachesMatch.
    eexists _, _, [], (lit "*.txt"), [], _, _, _, [lit "docs/a.txt"], [].
    split; [vm_compute; reflexivity |]. split; [reflexivity |].
    split; [vm_compute; reflexivity |]. split; [vm_compute; reflexivity |].
    vm_compute; reflexivity. }
  split; [exact Hreach |].
  split; [reflexivity |]. split; [reflexivity |]. split; [reflexivity |].
  destruct (proj1 (downloadFiles_existing_destination Hreach eq_refl) eq_refl)
    as (Hrun & _ & Hnone).
  split; [exact Hrun |].
  apply Hnone.
  - intros [].
  - repeat constructor. discriminate.
Defined.
